(** * rafttest: a shallow embedding of the cluster harness

    The development follows the two Go sources of the package:
    [cluster.go] (Cluster, Shutdown, Other, newDefaultNode, newRaft,
    bootstrapCluster) and the notify knob (Notify, NextAcquired, NextLost,
    nextMatching, next, watch).

    Go's [int] and [time.Duration] are modelled as [Z] (no arithmetic in the
    package comes near the 64-bit range), slices as lists, [map[int]*node]
    as a [gmap Z node].  Part I holds the embedding, Part II the facts. *)

From stdpp Require Import base list gmap strings.
From Stdlib Require Import ZArith QArith Lia DecimalString.

Local Open Scope Z_scope.

(** * Part I: the embedding *)

(** ** How a call into the harness ends *)

(** [t.Fatalf] stops the calling test on the spot; a Go run-time panic (nil
    dereference, index out of range) is kept apart from it. The message is
    the format string of the source; its arguments are not rendered. *)
Inductive outcome (A : Type) : Type :=
| Done (a : A)
| Fatal (msg : string)
| Panic (msg : string).
Arguments Done {A} a.
Arguments Fatal {A} msg.
Arguments Panic {A} msg.

Definition is_done {A} (o : outcome A) : bool :=
  match o with Done _ => true | _ => false end.

Definition is_fatal {A} (o : outcome A) : bool :=
  match o with Fatal _ => true | _ => false end.

(** ** time *)

Definition Millisecond : Z := 1000000.
Definition Second : Z := 1000000000.

(** ** Other (cluster.go) *)

(** The inner loop: [different] stays true unless some [i == j]. *)
Fixpoint different (j : Z) (indexes : list Z) : bool :=
  match indexes with
  | [] => true
  | i :: rest => if i =? j then false else different j rest
  end.

(** The outer loop, [for j := range rafts], entered at index [j]. The
    element type of the slice plays no role: only its length does. *)
Fixpoint Other_from {Raft : Type} (j : Z) (rafts : list Raft) (indexes : list Z) : Z :=
  match rafts with
  | [] => -1
  | _ :: rest =>
      if different j indexes then j else Other_from (j + 1) rest indexes
  end.

Definition Other {Raft : Type} (rafts : list Raft) (indexes : list Z) : Z :=
  Other_from 0 rafts indexes.

(** ** The handles of the consensus engine (package raft) *)

Definition ServerID := string.
Definition ServerAddress := string.

Inductive ServerSuffrage := Voter | Nonvoter | Staging.

Record raft_Server := {
  Suffrage : ServerSuffrage;
  ID : ServerID;
  Address : ServerAddress;
}.

Record raft_Configuration := { Servers : list raft_Server }.

(** A transport object: which allocation it is, the address it answers
    [LocalAddr()] with, and whether its dynamic type implements
    [raft.WithPeers]. *)
Record raft_Transport := {
  transport_id : nat;
  LocalAddr : ServerAddress;
  WithPeers : bool;
}.

(** Stores are opaque: only their identity is kept. *)
Inductive raft_Store := InmemStore (id : nat).
Inductive raft_SnapshotStore := InmemSnapshotStore (id : nat).

(** An FSM and a running node are opaque too; [*raft.Raft] may be nil. *)
Inductive raft_FSM := FSM (id : nat).
Inductive raft_Raft := nilRaft | RaftNode (id : nat).

(** The fields of [raft.Config] the package writes. Time-outs are exact
    rationals of nanoseconds (see [Duration]). *)
Record raft_Config := {
  LocalID : ServerID;
  LoggerPrefix : string;
  HeartbeatTimeout : Q;
  ElectionTimeout : Q;
  LeaderLeaseTimeout : Q;
  CommitTimeout : Q;
  NotifyCh : option nat;
}.

(** What a shutdown future will answer: when [Error()] returns, counted from
    the moment the caller arms its timer, and with which error. *)
Record raft_Future := {
  completes : Z;
  Error : option string;
}.

(** ** The dependencies of one node (cluster.go) *)

(** [node_addr] is the identity of the allocated struct, the thing [==]
    compares on two [*node]. *)
Record node := {
  node_addr : nat;
  Config : raft_Config;
  Logs : raft_Store;
  Stable : raft_Store;
  Snapshots : raft_SnapshotStore;
  Configuration : option raft_Configuration;
  Transport : raft_Transport;
  Bootstrap : bool;
}.

Record cluster := { nodes : gmap Z node }.

(** ** Effects *)

(** Every call that leaves the package is logged, oldest first. *)
Inductive effect :=
| CallNewInmemTransport (addr : ServerAddress)
| CallNewInmemStore
| CallNewInmemSnapshotStore
| AllocNode
| CallConnect (from : raft_Transport) (peer : ServerAddress) (t : raft_Transport)
| CallBootstrapCluster (conf : raft_Config) (logs stable : raft_Store)
    (snaps : raft_SnapshotStore) (trans : raft_Transport)
    (configuration : raft_Configuration)
| CallNewRaft (conf : raft_Config) (fsm : raft_FSM) (logs stable : raft_Store)
    (snaps : raft_SnapshotStore) (trans : raft_Transport)
| CallShutdown (r : raft_Raft)
| TimeAfter (d : Z)
| Receive (from : string)
| KnobDid (what : string).

(** A computation of the harness: it reads the log so far, extends it, and
    ends in an [outcome]. *)
Definition run (A : Type) : Type := list effect → outcome A * list effect.

#[global] Instance run_ret : MRet run := λ A a tr, (Done a, tr).

#[global] Instance run_bind : MBind run := λ A B k m tr,
  match m tr with
  | (Done a, tr') => k a tr'
  | (Fatal msg, tr') => (Fatal msg, tr')
  | (Panic msg, tr') => (Panic msg, tr')
  end.

Definition Fatalf {A} (msg : string) : run A := λ tr, (Fatal msg, tr).
Definition panic {A} (msg : string) : run A := λ tr, (Panic msg, tr).
Definition emit (e : effect) : run unit := λ tr, (Done tt, tr ++ [e]).

(** [for _, x := range xs { body x }] *)
Fixpoint for_range {A} (xs : list A) (body : A → run unit) : run unit :=
  match xs with
  | [] => mret tt
  | x :: rest => body x ≫= λ _, for_range rest body
  end.

(** ** The world outside the package *)

(** The three [range] statements over the node table in bootstrapCluster. *)
Inductive range_site :=
| OuterConnect
| InnerConnect (i : Z)
| BootstrapLoop.

(** Everything the harness cannot decide: the latency multiplier of the
    environment, the order in which Go ranges over a map, and what the
    engine answers. The engine's answers may depend on all that happened
    before. *)
Record world := {
  GO_RAFT_TEST_LATENCY : Q;
  range_nodes : range_site → gmap Z node → list (Z * node);
  raft_BootstrapCluster :
    list effect → raft_Config → raft_Store → raft_Store →
    raft_SnapshotStore → raft_Transport → raft_Configuration → option string;
  raft_NewRaft :
    list effect → raft_Config → raft_FSM → raft_Store → raft_Store →
    raft_SnapshotStore → raft_Transport → raft_Raft * option string;
  raft_Shutdown : list effect → raft_Raft → raft_Future;
}.

(** Go visits every entry of a map once, in an order of its own. *)
Definition ranges_visit_each_once (w : world) : Prop :=
  ∀ site (m : gmap Z node), range_nodes w site m ≡ₚ map_to_list m.

(** [strconv.Itoa] *)
Definition Itoa (i : Z) : string := NilZero.string_of_int (Z.to_int i).

(** Modelled from the spec: Duration, the helper that scales a default
    time-out by the latency multiplier, is not among the sources. The spec
    has a positive real multiplier that scales every time-out
    proportionally, 1.0 leaving it unchanged; it names no rounding, so the
    product is kept exact. *)
Definition Duration (latency : Q) (d : Z) : Q := (inject_Z d * latency)%Q.

(** ** cluster.go *)

Section cluster_go.
Variable w : world.

(** Calls into the engine: each is logged, allocations are numbered by the
    length of the log at the call. *)
Definition call_NewInmemTransport (addr : ServerAddress) : run raft_Transport :=
  λ tr, (Done {| transport_id := length tr; LocalAddr := addr; WithPeers := true |},
         tr ++ [CallNewInmemTransport addr]).

Definition call_NewInmemStore : run raft_Store :=
  λ tr, (Done (InmemStore (length tr)), tr ++ [CallNewInmemStore]).

Definition call_NewInmemSnapshotStore : run raft_SnapshotStore :=
  λ tr, (Done (InmemSnapshotStore (length tr)), tr ++ [CallNewInmemSnapshotStore]).

Definition alloc_node : run nat :=
  λ tr, (Done (length tr), tr ++ [AllocNode]).

Definition call_BootstrapCluster (nd : node) (configuration : raft_Configuration)
    : run (option string) :=
  λ tr, (Done (raft_BootstrapCluster w tr (Config nd) (Logs nd) (Stable nd)
                 (Snapshots nd) (Transport nd) configuration),
         tr ++ [CallBootstrapCluster (Config nd) (Logs nd) (Stable nd)
                  (Snapshots nd) (Transport nd) configuration]).

Definition call_NewRaft (fsm : raft_FSM) (nd : node) : run (raft_Raft * option string) :=
  λ tr, (Done (raft_NewRaft w tr (Config nd) fsm (Logs nd) (Stable nd)
                 (Snapshots nd) (Transport nd)),
         tr ++ [CallNewRaft (Config nd) fsm (Logs nd) (Stable nd)
                  (Snapshots nd) (Transport nd)]).

Definition call_Shutdown (r : raft_Raft) : run raft_Future :=
  λ tr, (Done (raft_Shutdown w tr r), tr ++ [CallShutdown r]).

(** Create default dependencies for a single raft node. *)
Definition newDefaultNode (i : Z) : run node :=
  let addr := Itoa i in
  transport ← call_NewInmemTransport addr;
  let config :=
    {| LocalID := addr;
       LoggerPrefix := addr +:+ ": ";
       HeartbeatTimeout := Duration (GO_RAFT_TEST_LATENCY w) (10 * Millisecond);
       ElectionTimeout := Duration (GO_RAFT_TEST_LATENCY w) (10 * Millisecond);
       LeaderLeaseTimeout := Duration (GO_RAFT_TEST_LATENCY w) (10 * Millisecond);
       CommitTimeout := Duration (GO_RAFT_TEST_LATENCY w) (5 * Millisecond);
       NotifyCh := None |} in
  logs ← call_NewInmemStore;
  stable ← call_NewInmemStore;
  snapshots ← call_NewInmemSnapshotStore;
  p ← alloc_node;
  mret {| node_addr := p;
          Config := config;
          Logs := logs;
          Stable := stable;
          Snapshots := snapshots;
          Configuration := None;
          Transport := transport;
          Bootstrap := true |}.

(** Convenience around raft.NewRaft; a nil [*node] cannot be read. *)
Definition newRaft (fsm : raft_FSM) (nd : option node) : run (raft_Raft * option string) :=
  match nd with
  | Some nd => call_NewRaft fsm nd
  | None => panic "invalid memory address or nil pointer dereference"
  end.

(** The inner loop of the first pass: connect [node1] to every other
    bootstrapping node. *)
Definition connect_to (node1 : node) (node2 : node) : run unit :=
  if bool_decide (node_addr node2 = node_addr node1) || negb (Bootstrap node2)
  then mret tt
  else
    if WithPeers (Transport node1)
    then emit (CallConnect (Transport node1) (LocalAddr (Transport node2)) (Transport node2))
    else Fatalf "transport of node %d does not implement WithPeers".

Definition server_of (i : Z) (node1 : node) : raft_Server :=
  {| Suffrage := Voter; ID := Itoa i; Address := LocalAddr (Transport node1) |}.

(** The first pass: collect the servers and connect the transports. *)
Fixpoint connect_pass (nds : gmap Z node) (outer : list (Z * node))
    (servers : list raft_Server) : run (list raft_Server) :=
  match outer with
  | [] => mret servers
  | (i, node1) :: rest =>
      if negb (Bootstrap node1) then connect_pass nds rest servers
      else
        let servers := servers ++ [server_of i node1] in
        _ ← for_range (range_nodes w (InnerConnect i) nds)
              (λ '(_, node2), connect_to node1 node2);
        connect_pass nds rest servers
  end.

(** The body of the second pass. *)
Definition bootstrap_one (configuration : raft_Configuration) (nd : node) : run unit :=
  if negb (Bootstrap nd) then mret tt
  else
    err ← call_BootstrapCluster nd configuration;
    match err with
    | Some _ => Fatalf "failed to bootstrap cluster: %v"
    | None => mret tt
    end.

(** Bootstrap the cluster, by connecting the appropriate nodes to each other
    and setting up their initial configuration. *)
Definition bootstrapCluster (nds : gmap Z node) : run unit :=
  servers ← connect_pass nds (range_nodes w OuterConnect nds) [];
  let configuration := {| Servers := servers |} in
  for_range (range_nodes w BootstrapLoop nds)
    (λ '(_, nd), bootstrap_one configuration nd).

(** The order in which the answers of the futures reach the [errors]
    channel: each goroutine sends when its future completes. *)
Fixpoint arrive (f : raft_Future) (queue : list raft_Future) : list raft_Future :=
  match queue with
  | [] => [f]
  | g :: rest =>
      if completes f <=? completes g then f :: g :: rest else g :: arrive f rest
  end.

Fixpoint arrivals (futures : list raft_Future) : list raft_Future :=
  match futures with
  | [] => []
  | f :: rest => arrive f (arrivals rest)
  end.

(** One [select] per future: the timer armed before the loop, or the next
    answer. The timer wins once its time is reached. *)
Fixpoint await_all (timeout : Z) (errors : list raft_Future) : run unit :=
  match errors with
  | [] => mret tt
  | f :: rest =>
      if timeout <=? completes f
      then Fatalf "cluster did not shutdown within 5 second"
      else
        _ ← emit (Receive "errors");
        match Error f with
        | Some _ => Fatalf "failed to shutdown raft node: %v"
        | None => await_all timeout rest
        end
  end.

(** [futures[i] = r.Shutdown()] for every node, in order. *)
Fixpoint shutdown_requests (rafts : list raft_Raft) : run (list raft_Future) :=
  match rafts with
  | [] => mret []
  | r :: rest =>
      f ← call_Shutdown r;
      fs ← shutdown_requests rest;
      mret (f :: fs)
  end.

(** Shutdown all the given raft nodes and fail the test if any of them
    errors out while doing so. *)
Definition Shutdown (rafts : list raft_Raft) : run unit :=
  futures ← shutdown_requests rafts;
  let errors := arrivals futures in
  _ ← emit (TimeAfter (5 * Second));
  await_all (5 * Second) errors.

(** Knob can be used to tweak the dependencies of test Raft nodes. A knob
    reaches the cluster through a pointer: [pre] hands back the cluster as
    it left it. *)
Record Knob := {
  pre : cluster → run cluster;
  post : list raft_Raft → run unit;
}.

(** [for i := 0; i < n; i++ { cluster.nodes[i] = newDefaultNode(t, i) }],
    with [count] rounds left. *)
Fixpoint default_nodes (count : nat) (i : Z) (c : cluster) : run cluster :=
  match count with
  | O => mret c
  | S count =>
      nd ← newDefaultNode i;
      default_nodes count (i + 1) {| nodes := <[i := nd]> (nodes c) |}
  end.

(** [for _, knob := range knobs { knob.pre(cluster) }] *)
Fixpoint pre_knobs (knobs : list Knob) (c : cluster) : run cluster :=
  match knobs with
  | [] => mret c
  | knob :: rest => c' ← pre knob c; pre_knobs rest c'
  end.

(** [for i := range fsms { ... rafts[i] = raft }] entered at index [i]. *)
Fixpoint start_nodes (c : cluster) (i : Z) (fsms : list raft_FSM)
    (rafts : list raft_Raft) : run (list raft_Raft) :=
  match fsms with
  | [] => mret rafts
  | fsm :: rest =>
      '(raft, err) ← newRaft fsm (nodes c !! i);
      match err with
      | Some _ => Fatalf "failed to start test raft node %d: %v"
      | None => start_nodes c (i + 1) rest (<[Z.to_nat i := raft]> rafts)
      end
  end.

(** Cluster creates n raft nodes, one for each of the given FSMs. *)
Definition Cluster (fsms : list raft_FSM) (knobs : list Knob)
    : run (list raft_Raft * run unit) :=
  let n := length fsms in
  c ← default_nodes n 0 {| nodes := ∅ |};
  c ← pre_knobs knobs c;
  _ ← bootstrapCluster (nodes c);
  rafts ← start_nodes c 0 fsms (replicate n nilRaft);
  _ ← for_range knobs (λ knob, post knob rafts);
  let cleanup := Shutdown rafts in
  mret (rafts, cleanup).

End cluster_go.

(** ** The notify knob *)

(** leadershipChange includes information about a leadership change in a
    node. *)
Record leadershipChange := {
  On : Z;
  Acquired : bool;
}.

(** A [chan bool] as its receiver sees it: the values sent and not yet
    received, oldest first, whether the sender closed it, and its buffer
    size. *)
Record chan_bool := {
  queued : list bool;
  closed : bool;
  capacity : nat;
}.

(** [make(chan bool, 1000)] *)
Definition make_chan (size : nat) : chan_bool :=
  {| queued := []; closed := false; capacity := size |}.

(** A receive: the value, the [ok] flag and the channel left behind, or
    nothing while the receive would block. A closed and drained channel
    yields the zero value with [ok = false]. *)
Definition receive (c : chan_bool) : option (bool * bool * chan_bool) :=
  match queued c with
  | v :: rest =>
      Some (v, true, {| queued := rest; closed := closed c; capacity := capacity c |})
  | [] => if closed c then Some (false, false, c) else None
  end.

(** The fields of NotifyKnob the aggregator works on: what was sent on
    [k.ch] so far, oldest first, and the per-node channels. *)
Record NotifyKnob := {
  ch : list leadershipChange;
  notifyChs : list chan_bool;
}.

(** The state of [watch]: the knob and the local slice [cases]; a select
    case is named by the entry of [k.notifyChs] its [Chan] holds. *)
Record watching := {
  knob : NotifyKnob;
  cases : list nat;
}.

(** [cases[i]] is made from [k.notifyChs[i]], for every [i]. *)
Definition watch_start (k : NotifyKnob) : watching :=
  {| knob := k; cases := seq 0 (length (notifyChs k)) |}.

(** [reflect.Select(cases)] where Go's choice falls on case [i]. *)
Definition Select (k : NotifyKnob) (cs : list nat) (i : nat)
    : option (bool * bool * NotifyKnob) :=
  c ← cs !! i;
  chn ← notifyChs k !! c;
  '(value, ok, chn') ← receive chn;
  Some (value, ok, {| ch := ch k; notifyChs := <[c := chn']> (notifyChs k) |}).

Inductive iteration :=
| Exit
| Blocked
| Next (s : watching).

(** One round of the loop of [watch]. The send on [k.ch] is taken by the
    test on the other side. *)
Definition watch_iteration (i : nat) (s : watching) : iteration :=
  if bool_decide (1 < length (cases s))%nat then
    match Select (knob s) (cases s) i with
    | None => Blocked
    | Some (value, ok, k) =>
        let cs := if ok then cases s
                  else take i (cases s) ++ drop (S i) (cases s) in
        Next {| knob := {| ch := ch k ++ [{| On := Z.of_nat i; Acquired := value |}];
                           notifyChs := notifyChs k |};
                cases := cs |}
    end
  else Exit.

(** What runs beside the aggregator: Go's choices in [reflect.Select], and
    the nodes signalling on, or closing, their channels. *)
Inductive action :=
| Pick (i : nat)
| Signal (c : nat) (v : bool)
| Close (c : nat).

Definition signal (v : bool) (c : chan_bool) : chan_bool :=
  if closed c || bool_decide (capacity c ≤ length (queued c))%nat then c
  else {| queued := queued c ++ [v]; closed := closed c; capacity := capacity c |}.

Definition close (c : chan_bool) : chan_bool :=
  {| queued := queued c; closed := true; capacity := capacity c |}.

Definition on_channel (c : nat) (f : chan_bool → chan_bool) (s : watching) : watching :=
  {| knob := {| ch := ch (knob s); notifyChs := alter f c (notifyChs (knob s)) |};
     cases := cases s |}.

(** [watch] under a schedule; it stays where it is once the loop is left or
    when the chosen case is not ready. *)
Fixpoint watch_loop (schedule : list action) (s : watching) : watching :=
  match schedule with
  | [] => s
  | Pick i :: rest =>
      match watch_iteration i s with
      | Next s' => watch_loop rest s'
      | Exit | Blocked => s
      end
  | Signal c v :: rest => watch_loop rest (on_channel c (signal v) s)
  | Close c :: rest => watch_loop rest (on_channel c close s)
  end.

Definition watch (schedule : list action) (k : NotifyKnob) : watching :=
  watch_loop schedule (watch_start k).

Section notify_consumer.
(** WaitLeader and waitTimeout are helpers of the package kept in a file
    that is not among the sources: they return, or fail the test. The check
    handed to waitTimeout reads the state of one node, which stands for it
    here. *)
Variable WaitLeader : raft_Raft → Z → outcome unit.
Variable waitTimeout : Z → raft_Raft → Z → string → outcome unit.

(** [k.rafts], set by [post]. *)
Variable rafts : list raft_Raft.

(** [next] at time [now]: [pending] is the next send on [k.ch] with the time
    at which the aggregator offers it, if there is one to come. The timer
    wins when both are ready together. Returns the event and the time of
    the return. *)
Definition next (timeout now : Z) (pending : option (Z * leadershipChange))
    : outcome (leadershipChange * Z) :=
  match pending with
  | Some (offered, info) =>
      if Z.max now offered <? now + timeout then Done (info, Z.max now offered)
      else Fatal "no notification received within %s"
  | None => Fatal "no notification received within %s"
  end.

(** [k.rafts[i]] *)
Definition raft_at (i : Z) : outcome raft_Raft :=
  if bool_decide (0 ≤ i) then
    match rafts !! Z.to_nat i with
    | Some r => Done r
    | None => Panic "index out of range"
    end
  else Panic "index out of range".

(** Return the next leadershipChange received matching 'acquired'. *)
Fixpoint nextMatching (timeout : Z) (acquired : bool) (now : Z)
    (feed : list (Z * leadershipChange)) : outcome Z :=
  let start := now in
  match next timeout now (head feed) with
  | Fatal msg => Fatal msg
  | Panic msg => Panic msg
  | Done (info, now) =>
      match feed with
      | [] => Fatal "no notification received within %s" (* not reached: [next] has failed *)
      | _ :: feed =>
          if negb (eqb (Acquired info) acquired)
          then nextMatching (timeout - (now - start)) acquired now feed
          else
            match raft_at (On info) with
            | Done r =>
                let confirmed :=
                  if acquired then WaitLeader r timeout
                  else waitTimeout timeout r (25 * Millisecond) "leader state not lost" in
                match confirmed with
                | Done _ => Done (On info)
                | Fatal msg => Fatal msg
                | Panic msg => Panic msg
                end
            | Fatal msg => Fatal msg
            | Panic msg => Panic msg
            end
      end
  end.

Definition NextAcquired (timeout now : Z) feed : outcome Z :=
  nextMatching timeout true now feed.

Definition NextLost (timeout now : Z) feed : outcome Z :=
  nextMatching timeout false now feed.

End notify_consumer.

(** ** The notify knob as a Knob: pre and post *)

(** [node.Config.NotifyCh = notifyCh], the channel being named by the
    entry of [k.notifyChs] that holds it. *)
Definition with_NotifyCh (chn : nat) (nd : node) : node :=
  {| node_addr := node_addr nd;
     Config := {| LocalID := LocalID (Config nd);
                  LoggerPrefix := LoggerPrefix (Config nd);
                  HeartbeatTimeout := HeartbeatTimeout (Config nd);
                  ElectionTimeout := ElectionTimeout (Config nd);
                  LeaderLeaseTimeout := LeaderLeaseTimeout (Config nd);
                  CommitTimeout := CommitTimeout (Config nd);
                  NotifyCh := Some chn |};
     Logs := Logs nd;
     Stable := Stable nd;
     Snapshots := Snapshots nd;
     Configuration := Configuration nd;
     Transport := Transport nd;
     Bootstrap := Bootstrap nd |}.


(** Notify exposes APIs to block until a node of the cluster acquires or
    loses leadership. Its [pre] gives every node a channel, stored at
    [k.notifyChs[i]] (an index outside the slice panics), and starts the
    aggregator; its [post] keeps the instances. *)
Definition Notify : Knob := {|
  pre := λ c,
    if bool_decide (map_Forall (λ i _, 0 ≤ i < Z.of_nat (size (nodes c))) (nodes c))
    then
      _ ← emit (KnobDid "go k.watch()");
      mret {| nodes := map_imap (λ i nd, Some (with_NotifyCh (Z.to_nat i) nd)) (nodes c) |}
    else panic "index out of range";
  post := λ _, mret tt;
|}.

(** ** Claims as the specification words them, and concrete scenarios *)

(** The aggregator as the specification has it: a value is forwarded under
    the index of the node that owns the channel, a closure only shrinks the
    live set. *)
Definition forwards_by_owner_and_drops_closures : Prop :=
  ∀ (s s' : watching) (i c : nat) (chn : chan_bool),
    watch_iteration i s = Next s' →
    cases s !! i = Some c →
    notifyChs (knob s) !! c = Some chn →
    match receive chn with
    | Some (v, true, _) =>
        ch (knob s') = ch (knob s) ++ [{| On := Z.of_nat c; Acquired := v |}]
        ∧ cases s' = cases s
    | Some (_, false, _) =>
        ch (knob s') = ch (knob s)
        ∧ cases s' = take i (cases s) ++ drop (S i) (cases s)
    | None => True
    end.

(** No channel was taken off the live set yet. *)
Definition nothing_removed (s : watching) : Prop :=
  cases s = seq 0 (length (notifyChs (knob s))).

(** The knob of a three-node cluster right after [pre]. *)
Definition three_nodes : NotifyKnob :=
  {| ch := []; notifyChs := replicate 3 (make_chan 1000) |}.

(** Node 0 shuts down and closes its channel. *)
Definition node0_closed : watching := watch [Close 0%nat] three_nodes.

(** The aggregator has seen the closure; node 1 then wins the election. *)
Definition node1_elected : watching :=
  watch [Close 0%nat; Pick 0%nat; Signal 1%nat true] three_nodes.

(** The time at which a consumer that starts waiting at [now] has received
    all of [seen]: an event is received when it is offered, or at once if
    it was offered before. *)
Definition received_by (now : Z) (seen : list (Z * leadershipChange)) : Z :=
  foldl (λ t e, Z.max t e.1) now seen.

(** The confirmation [nextMatching] runs on a matching event. *)
Definition confirmation (WaitLeader : raft_Raft → Z → outcome unit)
    (waitTimeout : Z → raft_Raft → Z → string → outcome unit)
    (acquired : bool) (r : raft_Raft) (timeout : Z) : outcome unit :=
  if acquired then WaitLeader r timeout
  else waitTimeout timeout r (25 * Millisecond) "leader state not lost".

(** A world where nothing goes wrong: no extra latency, maps ranged over in
    the order of [map_to_list], an engine that accepts every call and shuts
    down within a millisecond. *)
Definition quiet_world : world := {|
  GO_RAFT_TEST_LATENCY := 1;
  range_nodes := λ _ m, map_to_list m;
  raft_BootstrapCluster := λ _ _ _ _ _ _ _, None;
  raft_NewRaft := λ tr _ _ _ _ _ _, (RaftNode (length tr), None);
  raft_Shutdown := λ _ _, {| completes := Millisecond; Error := None |};
|}.

(** The default time-outs as the specification words them: below 10 and 5
    milliseconds when the multiplier is 1.0. *)
Definition default_timeouts_below_10ms_and_5ms : Prop :=
  ∀ (w : world) (i : Z) (tr : list effect),
    (GO_RAFT_TEST_LATENCY w == 1)%Q →
    match newDefaultNode w i tr with
    | (Done nd, _) =>
        (HeartbeatTimeout (Config nd) < inject_Z (10 * Millisecond))%Q
        ∧ (ElectionTimeout (Config nd) < inject_Z (10 * Millisecond))%Q
        ∧ (LeaderLeaseTimeout (Config nd) < inject_Z (10 * Millisecond))%Q
        ∧ (CommitTimeout (Config nd) < inject_Z (5 * Millisecond))%Q
    | _ => True
    end.



(** *** Reading the log of bootstrapCluster *)

Definition connect_call (node1 node2 : node) : effect :=
  CallConnect (Transport node1) (LocalAddr (Transport node2)) (Transport node2).

Definition bootstrap_call (configuration : raft_Configuration) (nd : node) : effect :=
  CallBootstrapCluster (Config nd) (Logs nd) (Stable nd) (Snapshots nd)
    (Transport nd) configuration.

Definition is_connect (e : effect) : Prop :=
  match e with CallConnect _ _ _ => True | _ => False end.

Definition is_bootstrap (e : effect) : Prop :=
  match e with CallBootstrapCluster _ _ _ _ _ _ => True | _ => False end.

#[global] Instance is_connect_dec (e : effect) : Decision (is_connect e).
Proof. destruct e; simpl; apply _. Defined.

#[global] Instance is_bootstrap_dec (e : effect) : Decision (is_bootstrap e).
Proof. destruct e; simpl; apply _. Defined.

(** The entries of a range whose node is flagged for bootstrap. *)
Definition flagged (visited : list (Z * node)) : list (Z * node) :=
  filter (λ e, Bootstrap e.2 = true) visited.

(** The nodes [node1] is to be connected to: the other flagged ones. *)
Definition peers_of (node1 : node) (visited : list (Z * node)) : list node :=
  filter (λ node2, node_addr node2 ≠ node_addr node1 ∧ Bootstrap node2 = true)
    visited.*2.

(** The Bootstrap Membership of a node table under world [w]. *)
Definition membership (w : world) (nds : gmap Z node) : raft_Configuration :=
  {| Servers := (λ e, server_of e.1 e.2) <$> flagged (range_nodes w OuterConnect nds) |}.

(** A flagged node can be wired: its transport connects peers, or it has no
    peer to connect to. *)
Definition can_connect (w : world) (nds : gmap Z node) (e : Z * node) : Prop :=
  WithPeers (Transport e.2) = true
  ∨ peers_of e.2 (range_nodes w (InnerConnect e.1) nds) = [].

#[global] Instance can_connect_dec w nds e : Decision (can_connect w nds e).
Proof. unfold can_connect. apply _. Defined.

(** All the [Connect] calls of a first pass over [outer] that goes through. *)
Definition connect_calls (w : world) (nds : gmap Z node) (outer : list (Z * node))
    : list effect :=
  e ← flagged outer;
  connect_call e.2 <$> peers_of e.2 (range_nodes w (InnerConnect e.1) nds).

(** The engine accepts the bootstrap of each of [called] in turn. *)
Fixpoint bootstraps_accepted (w : world) (configuration : raft_Configuration)
    (tr : list effect) (called : list node) : Prop :=
  match called with
  | [] => True
  | nd :: rest =>
      raft_BootstrapCluster w tr (Config nd) (Logs nd) (Stable nd)
        (Snapshots nd) (Transport nd) configuration = None
      ∧ bootstraps_accepted w configuration
          (tr ++ [bootstrap_call configuration nd]) rest
  end.

(** The claim on transports as the specification words it: any flagged node
    whose transport cannot connect peers makes the construction fail. *)
Definition unsupported_transport_is_fatal : Prop :=
  ∀ (w : world) (nds : gmap Z node) (tr : list effect) (i : Z) (nd : node),
    ranges_visit_each_once w →
    nds !! i = Some nd →
    Bootstrap nd = true →
    WithPeers (Transport nd) = false →
    is_fatal (bootstrapCluster w nds tr).1 = true.

(** A node whose transport was replaced by one that cannot connect peers. *)
Definition lone_node : node := {|
  node_addr := 0;
  Config := {| LocalID := "0"; LoggerPrefix := "0: ";
               HeartbeatTimeout := 10000000; ElectionTimeout := 10000000;
               LeaderLeaseTimeout := 10000000; CommitTimeout := 5000000;
               NotifyCh := None |};
  Logs := InmemStore 1;
  Stable := InmemStore 2;
  Snapshots := InmemSnapshotStore 3;
  Configuration := None;
  Transport := {| transport_id := 4; LocalAddr := "0"; WithPeers := false |};
  Bootstrap := true;
|}.

(** The node table as [bootstrapCluster] receives it in [Cluster]: the
    default nodes, then the pre hooks of the knobs. *)
Definition dependencies (w : world) (n : nat) (knobs : list Knob) : run cluster :=
  default_nodes w n 0 {| nodes := ∅ |} ≫= pre_knobs knobs.

(** [bootstraps_accepted], computed. *)
Fixpoint bootstraps_accepted_dec_aux (w : world) (configuration : raft_Configuration)
    (tr : list effect) (called : list node) : bool :=
  match called with
  | [] => true
  | nd :: rest =>
      match raft_BootstrapCluster w tr (Config nd) (Logs nd) (Stable nd)
              (Snapshots nd) (Transport nd) configuration with
      | Some _ => false
      | None =>
          bootstraps_accepted_dec_aux w configuration
            (tr ++ [bootstrap_call configuration nd]) rest
      end
  end.

(** The table holds the dependencies of the indices 0 .. n-1 and of no
    other. *)
Definition dense (n : nat) (c : cluster) : Prop :=
  ∀ i, is_Some (nodes c !! i) ↔ 0 ≤ i < Z.of_nat n.


(** A knob in the manner of the package's own: it opts node [i] out of the
    initial bootstrap and remembers nothing. *)
Definition opt_out (i : Z) : Knob := {|
  pre := λ c,
    mret {| nodes := alter (λ nd, {| node_addr := node_addr nd;
                                     Config := Config nd;
                                     Logs := Logs nd;
                                     Stable := Stable nd;
                                     Snapshots := Snapshots nd;
                                     Configuration := Configuration nd;
                                     Transport := Transport nd;
                                     Bootstrap := false |}) i (nodes c) |};
  post := λ _, mret tt;
|}.

(** Two FSMs, and the table of the two default nodes made for them. *)
Definition two_fsms : list raft_FSM := [FSM 0; FSM 1].

Definition two_nodes : gmap Z node :=
  match default_nodes quiet_world 2 0 {| nodes := ∅ |} [] with
  | (Done c, _) => nodes c
  | _ => ∅
  end.

(** A world like the quiet one, where node 1 takes six seconds to shut
    down and node 2 reports an error. *)
Definition troubled_world : world := {|
  GO_RAFT_TEST_LATENCY := 5;
  range_nodes := λ _ m, map_to_list m;
  raft_BootstrapCluster := λ _ _ _ _ _ _ _, None;
  raft_NewRaft := λ tr _ _ _ _ _ _, (RaftNode (length tr), None);
  raft_Shutdown := λ _ r,
    match r with
    | RaftNode 1 => {| completes := 6 * Second; Error := None |}
    | RaftNode 2 => {| completes := Millisecond; Error := Some "raft is already shutdown" |}
    | _ => {| completes := Millisecond; Error := None |}
    end;
|}.

(** Checks that always confirm, for running the consumers. *)
Definition confirm_leader (r : raft_Raft) (timeout : Z) : outcome unit := Done tt.
Definition confirm_check (timeout : Z) (r : raft_Raft) (interval : Z) (msg : string)
    : outcome unit := Done tt.

(** What the test sees on [k.ch] of a three-node cluster: node 2 loses an
    election after 1 ms, node 0 wins one after 3 ms. *)
Definition election_feed : list (Z * leadershipChange) :=
  [(1 * Millisecond, {| On := 2; Acquired := false |});
   (3 * Millisecond, {| On := 0; Acquired := true |})].

Definition three_rafts : list raft_Raft := [RaftNode 10; RaftNode 11; RaftNode 12].

(** ** Further notions, for the facts beyond the claims *)

From Stdlib Require DecimalPos DecimalZ.

(** The booleans forwarded under index [c], oldest first. *)
Definition delivered (c : nat) (out : list leadershipChange) : list bool :=
  Acquired <$> filter (λ e, On e = Z.of_nat c) out.

(** What is still queued on the channel of node [c]. *)
Definition pending (c : nat) (k : NotifyKnob) : list bool :=
  from_option queued [] (notifyChs k !! c).

(** No node has closed its channel. *)
Definition all_open (k : NotifyKnob) : Prop :=
  Forall (λ chn, closed chn = false) (notifyChs k).

(** The nodes only signal: no channel is closed along the schedule. *)
Definition no_close (a : action) : Prop :=
  match a with Close _ => False | _ => True end.

(** The event names a node of a cluster of [n]. *)
Definition names_node (n : nat) (e : leadershipChange) : Prop :=
  0 ≤ On e < Z.of_nat n.

Definition is_panic {A} (o : outcome A) : bool :=
  match o with Panic _ => true | _ => false end.

(** The values the nodes try to signal on the channel of node [c] along a
    schedule, in order. *)
Definition signals_to (c : nat) (schedule : list action) : list bool :=
  omap (λ a, match a with
             | Signal c' v => if decide (c' = c) then Some v else None
             | _ => None
             end) schedule.

#[global] Instance no_close_dec (a : action) : Decision (no_close a).
Proof. destruct a; simpl; apply _. Defined.

(** The shape a run of the aggregator keeps: as many channels as at the
    start, and a live set that is what is left of 0 .. n-1. *)
Definition run_shape (n : nat) (s : watching) : Prop :=
  length (notifyChs (knob s)) = n ∧ cases s `sublist_of` seq 0 n.

(** What is off the live set is closed and drained. *)
Definition removed_are_done (s : watching) : Prop :=
  ∀ c chn, notifyChs (knob s) !! c = Some chn → c ∉ cases s →
           closed chn = true ∧ queued chn = [].

(** Distinct indices of the table hold distinct node structs. *)
Definition distinct_nodes (nds : gmap Z node) : Prop :=
  ∀ i j ni nj, nds !! i = Some ni → nds !! j = Some nj →
               node_addr ni = node_addr nj → i = j.

(** An engine that accepts every bootstrap and every start. *)
Definition accepting (w : world) : Prop :=
  (∀ tr conf logs stable snaps trans configuration,
     raft_BootstrapCluster w tr conf logs stable snaps trans configuration = None)
  ∧ (∀ tr conf fsm logs stable snaps trans,
       (raft_NewRaft w tr conf fsm logs stable snaps trans).2 = None).

Definition is_newraft (e : effect) : Prop :=
  match e with CallNewRaft _ _ _ _ _ _ => True | _ => False end.

#[global] Instance is_newraft_dec (e : effect) : Decision (is_newraft e).
Proof. destruct e; simpl; apply _. Defined.

Definition is_alloc (e : effect) : Prop :=
  match e with
  | CallNewInmemTransport _ | CallNewInmemStore
  | CallNewInmemSnapshotStore | AllocNode => True
  | _ => False
  end.

#[global] Instance is_alloc_dec (e : effect) : Decision (is_alloc e).
Proof. destruct e; simpl; apply _. Defined.

(** A table with one node, which a knob has opted out of the bootstrap. *)
Definition sitting_out : gmap Z node :=
  {[ 0 := {| node_addr := node_addr lone_node;
             Config := Config lone_node;
             Logs := Logs lone_node;
             Stable := Stable lone_node;
             Snapshots := Snapshots lone_node;
             Configuration := Configuration lone_node;
             Transport := Transport lone_node;
             Bootstrap := false |} ]}.


(** A world like the quiet one, whose engine refuses to start a node for
    the FSM numbered 1. *)
Definition refusing_world : world := {|
  GO_RAFT_TEST_LATENCY := 1;
  range_nodes := λ _ m, map_to_list m;
  raft_BootstrapCluster := λ _ _ _ _ _ _ _, None;
  raft_NewRaft := λ tr _ fsm _ _ _ _,
    match fsm with
    | FSM 1 => (nilRaft, Some "no such FSM")
    | _ => (RaftNode (length tr), None)
    end;
  raft_Shutdown := λ _ _, {| completes := Millisecond; Error := None |};
|}.

(** Three FSMs, the engine of [refusing_world] refusing the second. *)
Definition three_fsms : list raft_FSM := [FSM 0; FSM 1; FSM 2].




(** What the aggregator still has to do if the nodes stay silent: the
    values queued on live channels, and the live channels themselves. *)
Definition backlog (s : watching) : nat :=
  (sum_list_with (λ c, length (pending c (knob s))) (cases s) + length (cases s))%nat.

(** The signals the nodes try to send along a schedule. *)
Definition signalled (schedule : list action) : list bool :=
  omap (λ a, match a with Signal _ v => Some v | _ => None end) schedule.

(** * Part II: the facts *)

(** ** Other *)

Section other_facts.
Context {Raft : Type}.
Implicit Types (rafts : list Raft) (indexes : list Z) (j : Z).

Lemma different_true j indexes : different j indexes = true ↔ j ∉ indexes.
Proof.
  induction indexes as [|i rest IH]; simpl.
  - split; [intros _; apply not_elem_of_nil | done].
  - destruct (Z.eqb_spec i j) as [->|Hne].
    + split; [done | intros H; exfalso; apply H; left].
    + rewrite IH, not_elem_of_cons. split; [intros H; split; [congruence | done] | intros [_ H]; done].
Qed.

Lemma different_false j indexes : different j indexes = false ↔ j ∈ indexes.
Proof.
  destruct (different j indexes) eqn:E.
  - apply different_true in E. split; [done | intros H; contradiction].
  - split; [intros _ | done].
    destruct (decide (j ∈ indexes)) as [|Hn]; [done|].
    apply different_true in Hn. congruence.
Qed.

(** The loop entered at [j] either runs off the slice, every index it saw
    being excluded, or stops at the first index that is not. *)
Lemma Other_from_spec rafts indexes j :
  (Other_from j rafts indexes = (-1)
   ∧ ∀ k, j ≤ k < j + Z.of_nat (length rafts) → k ∈ indexes)
  ∨ (j ≤ Other_from j rafts indexes < j + Z.of_nat (length rafts)
     ∧ (Other_from j rafts indexes ∉ indexes)
     ∧ ∀ k, j ≤ k < Other_from j rafts indexes → k ∈ indexes).
Proof.
  revert j. induction rafts as [|x rest IH]; intros j; simpl.
  - left. split; [done | intros k Hk; lia].
  - destruct (different j indexes) eqn:E.
    + right. apply different_true in E.
      split; [lia|]. split; [done|]. intros k Hk; lia.
    + apply different_false in E.
      destruct (IH (j + 1)) as [[Hr Hall] | (Hr & Hnot & Hall)].
      * left. split; [done|]. intros k Hk.
        destruct (decide (k = j)) as [->|]; [done | apply Hall; lia].
      * right. split; [lia|]. split; [done|].
        intros k Hk. destruct (decide (k = j)) as [->|]; [done | apply Hall; lia].
Qed.

(** Other is the least index that is not excluded, or -1. *)
Lemma Other_smallest_free_index_aux rafts indexes :
  (0 ≤ Other rafts indexes < Z.of_nat (length rafts)
   ∧ (Other rafts indexes ∉ indexes)
   ∧ ∀ k, 0 ≤ k < Other rafts indexes → k ∈ indexes)
  ∨ (Other rafts indexes = (-1)
     ∧ ∀ k, 0 ≤ k < Z.of_nat (length rafts) → k ∈ indexes).
Proof.
  unfold Other. destruct (Other_from_spec rafts indexes 0) as [H|H].
  - right. destruct H as [H1 H2]. split; [done|]. intros k Hk. apply H2. lia.
  - left. destruct H as (H1 & H2 & H3). split; [lia|]. split; [done|].
    intros k Hk. apply H3. lia.
Qed.

(** C10: Other is a total function (it is one of Rocq) that returns the
    smallest index of the slice that is not among the excluded ones, and -1
    when there is none; on the empty slice it returns -1 whatever is
    excluded. *)
Theorem Other_smallest_free_index rafts indexes :
  ((0 ≤ Other rafts indexes < Z.of_nat (length rafts)
    ∧ (Other rafts indexes ∉ indexes)
    ∧ ∀ k, 0 ≤ k < Other rafts indexes → k ∈ indexes)
   ∨ (Other rafts indexes = (-1)
      ∧ ∀ k, 0 ≤ k < Z.of_nat (length rafts) → k ∈ indexes))
  ∧ Other (@nil Raft) indexes = (-1).
Proof.
  split; [apply Other_smallest_free_index_aux | reflexivity].
Qed.

(** C8: Other never returns an excluded index (what it returns is the
    sentinel -1 or an index of the slice that is not excluded, and no
    excluded index of the slice is ever returned); it returns the sentinel
    exactly when every index of the slice is excluded; and with at least
    two instances and a single excluded index it returns an index in
    [0, N). *)
Theorem Other_avoids_excluded rafts indexes :
  (Other rafts indexes = (-1)
   ∨ (0 ≤ Other rafts indexes < Z.of_nat (length rafts)
      ∧ (Other rafts indexes ∉ indexes)))
  ∧ (∀ e, e ∈ indexes → 0 ≤ e → Other rafts indexes ≠ e)
  ∧ (Other rafts indexes = (-1)
     ↔ ∀ k, 0 ≤ k < Z.of_nat (length rafts) → k ∈ indexes)
  ∧ (∀ e, (2 ≤ length rafts)%nat → indexes = [e] →
       0 ≤ Other rafts indexes < Z.of_nat (length rafts)).
Proof.
  destruct (Other_smallest_free_index_aux rafts indexes) as [H|H].
  - destruct H as (Hr & Hnot & Hmin).
    split; [right; done|]. split.
    { intros e He _ Heq. subst e. contradiction. }
    split.
    { split; [intros Heq; lia|]. intros Hall. exfalso. apply Hnot, Hall. done. }
    intros e _ _. done.
  - destruct H as [Hr Hall].
    split; [left; done|]. split.
    { intros e _ He Heq. lia. }
    split; [done|].
    intros e Hlen ->. exfalso.
    assert (H0 : 0 ∈ [e]) by (apply Hall; lia).
    assert (H1 : 1 ∈ [e]) by (apply Hall; lia).
    apply list_elem_of_singleton in H0, H1. lia.
Qed.

End other_facts.

(** ** The aggregator: watch *)

Section watch_facts.
Implicit Types (s : watching) (k : NotifyKnob) (i c : nat).

Lemma receive_ok_false (chn chn' : chan_bool) (v : bool) :
  receive chn = Some (v, false, chn') →
  v = false ∧ chn' = chn ∧ queued chn = [] ∧ closed chn = true.
Proof.
  unfold receive. destruct (queued chn) as [|x q] eqn:Eq; [|intros; simplify_eq].
  destruct (closed chn) eqn:Ec; intros; simplify_eq. done.
Qed.

Lemma receive_ok_true (chn chn' : chan_bool) (v : bool) :
  receive chn = Some (v, true, chn') →
  queued chn = v :: queued chn' ∧ closed chn' = closed chn.
Proof.
  unfold receive. destruct (queued chn) as [|x q] eqn:Eq.
  - destruct (closed chn); intros; simplify_eq.
  - intros; simplify_eq. done.
Qed.

(** What one round that goes through has done. *)
Lemma watch_iteration_Next s i s' :
  watch_iteration i s = Next s' →
  (1 < length (cases s))%nat
  ∧ ∃ c chn v ok chn',
      cases s !! i = Some c
      ∧ notifyChs (knob s) !! c = Some chn
      ∧ receive chn = Some (v, ok, chn')
      ∧ s' = {| knob := {| ch := ch (knob s) ++ [{| On := Z.of_nat i; Acquired := v |}];
                           notifyChs := <[c := chn']> (notifyChs (knob s)) |};
                cases := if ok then cases s
                         else take i (cases s) ++ drop (S i) (cases s) |}.
Proof.
  unfold watch_iteration, Select. case_bool_decide as Hlen; [|done].
  destruct (cases s !! i) as [c|] eqn:Ec; simpl; [|done].
  destruct (notifyChs (knob s) !! c) as [chn|] eqn:Echn; simpl; [|done].
  destruct (receive chn) as [[[v ok] chn']|] eqn:Er; simpl; [|done].
  intros [= <-]. split; [done|]. exists c, chn, v, ok, chn'. done.
Qed.


Lemma seq_lookup_eq (n i c : nat) : seq 0 n !! i = Some c → i = c.
Proof. intros H. apply lookup_seq in H. lia. Qed.

End watch_facts.

Section watch_claims.
Implicit Types (s : watching) (k : NotifyKnob) (i c : nat).

(** C1, as amended: every round of the aggregator that receives from a
    per-node channel sends exactly one event on the output channel, whose
    boolean is the received value unmodified and whose node index is the
    index of the node owning the channel as long as no channel has been
    taken off the live set; a value leaves the live set as it is, and a
    closure takes the channel off the live set and is itself forwarded as
    one event with Acquired = false. *)
Theorem watch_forwards_each_receive s i s' :
  watch_iteration i s = Next s' →
  ∃ c chn v ok chn' on,
    cases s !! i = Some c
    ∧ notifyChs (knob s) !! c = Some chn
    ∧ receive chn = Some (v, ok, chn')
    ∧ ch (knob s') = ch (knob s) ++ [{| On := on; Acquired := v |}]
    ∧ (nothing_removed s → on = Z.of_nat c)
    ∧ (ok = true → cases s' = cases s)
    ∧ (ok = false →
       v = false ∧ cases s' = take i (cases s) ++ drop (S i) (cases s)).
Proof.
  intros H. apply watch_iteration_Next in H as (_ & c & chn & v & ok & chn' & Hc & Hchn & Hr & ->).
  exists c, chn, v, ok, chn', (Z.of_nat i). simpl.
  split; [done|]. split; [done|]. split; [done|]. split; [done|].
  split.
  - intros Hn. red in Hn. rewrite Hn in Hc. apply seq_lookup_eq in Hc. by subst.
  - split; intros ->; [done|].
    apply receive_ok_false in Hr as (-> & _). done.
Qed.

Lemma watch_forwards_each_receive_witness :
  ∃ s', watch_iteration 0 node0_closed = Next s'
    ∧ ∃ c chn v ok chn' on,
        cases node0_closed !! 0%nat = Some c
        ∧ notifyChs (knob node0_closed) !! c = Some chn
        ∧ receive chn = Some (v, ok, chn')
        ∧ ch (knob s') = ch (knob node0_closed) ++ [{| On := on; Acquired := v |}]
        ∧ (nothing_removed node0_closed → on = Z.of_nat c)
        ∧ (ok = true → cases s' = cases node0_closed)
        ∧ (ok = false →
           v = false
           ∧ cases s' = take 0 (cases node0_closed) ++ drop 1 (cases node0_closed)).
Proof.
  eexists. split; [reflexivity|].
  apply (watch_forwards_each_receive node0_closed 0). reflexivity.
Defined.

(** The closure of node 0's channel is forwarded as an event, which the
    claim as worded rules out. *)
Lemma closure_is_forwarded : ¬ forwards_by_owner_and_drops_closures.
Proof.
  intros H.
  pose proof (H node0_closed _ 0%nat 0%nat _ eq_refl eq_refl eq_refl) as H'.
  simpl in H'. destruct H' as [H' _]. discriminate H'.
Qed.

(** After node 0 is gone, node 1's channel sits at position 0 of the live
    set, and its signal goes out under index 0. *)
Example event_of_node1_after_removal :
  cases node1_elected !! 0%nat = Some 1%nat
  ∧ ∃ s', watch_iteration 0 node1_elected = Next s'
      ∧ last (ch (knob s')) = Some {| On := 0; Acquired := true |}.
Proof. split; [reflexivity|]. eexists. split; reflexivity. Qed.








End watch_claims.

(** ** The consumers: next, nextMatching *)

Section notify_consumer_facts.
Variable WaitLeader : raft_Raft → Z → outcome unit.
Variable waitTimeout : Z → raft_Raft → Z → string → outcome unit.
Variable rafts : list raft_Raft.

Local Abbreviation nextMatching := (nextMatching WaitLeader waitTimeout rafts).
Local Abbreviation confirmation := (confirmation WaitLeader waitTimeout).

Implicit Types (feed skipped rest : list (Z * leadershipChange)).
Implicit Types (info : leadershipChange) (acquired : bool).


Lemma received_by_app now seen e :
  received_by now (seen ++ [e]) = Z.max (received_by now seen) e.1.
Proof. unfold received_by. by rewrite foldl_app. Qed.

(** A non-matching event that comes in time is discarded, and the wait for
    it is taken off the budget. *)
Lemma nextMatching_skip timeout acquired now offered info rest :
  Acquired info ≠ acquired →
  Z.max now offered < now + timeout →
  nextMatching timeout acquired now ((offered, info) :: rest)
  = nextMatching (timeout - (Z.max now offered - now)) acquired
      (Z.max now offered) rest.
Proof.
  intros Hne Hin. simpl.
  destruct (Z.ltb_spec (Z.max now offered) (now + timeout)) as [_|]; [|lia].
  destruct (Acquired info), acquired; simpl; congruence.
Qed.

(** A matching event that comes in time is confirmed with the budget left
    at the start of the wait for it. *)
Lemma nextMatching_match timeout acquired now offered info rest :
  Acquired info = acquired →
  Z.max now offered < now + timeout →
  nextMatching timeout acquired now ((offered, info) :: rest)
  = match raft_at rafts (On info) with
    | Done r =>
        match confirmation acquired r timeout with
        | Done _ => Done (On info)
        | Fatal msg => Fatal msg
        | Panic msg => Panic msg
        end
    | Fatal msg => Fatal msg
    | Panic msg => Panic msg
    end.
Proof.
  intros He Hin. simpl.
  destruct (Z.ltb_spec (Z.max now offered) (now + timeout)) as [_|]; [|lia].
  subst acquired. rewrite eqb_reflx. simpl. unfold confirmation.
  destruct (raft_at rafts (On info)); done.
Qed.

(** An event that comes too late, or none at all, fails the test. *)
Lemma nextMatching_late timeout acquired now offered info rest :
  now + timeout ≤ Z.max now offered →
  is_fatal (nextMatching timeout acquired now ((offered, info) :: rest)) = true.
Proof.
  intros Hout. simpl.
  destruct (Z.ltb_spec (Z.max now offered) (now + timeout)) as [|_]; [lia|]. done.
Qed.




End notify_consumer_facts.

(** ** cluster.go: newDefaultNode and Shutdown *)

Section run_facts.

Lemma bind_run {A B} (m : run A) (k : A → run B) tr :
  (m ≫= k) tr
  = match m tr with
    | (Done a, tr') => k a tr'
    | (Fatal msg, tr') => (Fatal msg, tr')
    | (Panic msg, tr') => (Panic msg, tr')
    end.
Proof. reflexivity. Qed.

Lemma ret_run {A} (a : A) tr : (mret a : run A) tr = (Done a, tr).
Proof. reflexivity. Qed.

End run_facts.

Section defaults_and_shutdown.
Variable w : world.

(** newDefaultNode always returns, and what it returns. *)
Lemma newDefaultNode_run i tr :
  ∃ nd tr',
    newDefaultNode w i tr = (Done nd, tr')
    ∧ tr' = tr ++ [CallNewInmemTransport (Itoa i); CallNewInmemStore;
                   CallNewInmemStore; CallNewInmemSnapshotStore; AllocNode]
    ∧ Bootstrap nd = true
    ∧ LocalID (Config nd) = Itoa i
    ∧ LocalAddr (Transport nd) = Itoa i
    ∧ WithPeers (Transport nd) = true
    ∧ HeartbeatTimeout (Config nd) = Duration (GO_RAFT_TEST_LATENCY w) (10 * Millisecond)
    ∧ ElectionTimeout (Config nd) = Duration (GO_RAFT_TEST_LATENCY w) (10 * Millisecond)
    ∧ LeaderLeaseTimeout (Config nd) = Duration (GO_RAFT_TEST_LATENCY w) (10 * Millisecond)
    ∧ CommitTimeout (Config nd) = Duration (GO_RAFT_TEST_LATENCY w) (5 * Millisecond).
Proof.
  eexists _, _. split.
  { cbv [newDefaultNode mbind run_bind mret run_ret call_NewInmemTransport
         call_NewInmemStore call_NewInmemSnapshotStore alloc_node].
    reflexivity. }
  cbv beta.
  split; [by rewrite <- !app_assoc|]. done.
Qed.

(** C7, as amended: every default dependency set has election, heartbeat
    and leader-lease time-outs of 10 milliseconds and a commit time-out of
    5 milliseconds (the values themselves, not values below them), each
    multiplied by the latency multiplier; a multiplier of 1.0 leaves every
    one of them unchanged. *)
Theorem newDefaultNode_timeouts i tr :
  (∃ nd tr',
     newDefaultNode w i tr = (Done nd, tr')
     ∧ (HeartbeatTimeout (Config nd) == 10000000 * GO_RAFT_TEST_LATENCY w)%Q
     ∧ (ElectionTimeout (Config nd) == 10000000 * GO_RAFT_TEST_LATENCY w)%Q
     ∧ (LeaderLeaseTimeout (Config nd) == 10000000 * GO_RAFT_TEST_LATENCY w)%Q
     ∧ (CommitTimeout (Config nd) == 5000000 * GO_RAFT_TEST_LATENCY w)%Q)
  ∧ (∀ d, Duration 1 d == inject_Z d)%Q.
Proof.
  split.
  - destruct (newDefaultNode_run i tr) as (nd & tr' & H & _ & _ & _ & _ & _ & Hh & He & Hl & Hc).
    exists nd, tr'. split; [done|]. rewrite Hh, He, Hl, Hc. unfold Duration.
    repeat split; reflexivity.
  - intros d. unfold Duration. ring.
Qed.

End defaults_and_shutdown.

(** At multiplier 1.0 the heartbeat time-out is 10 milliseconds, which is
    not below 10 milliseconds. *)
Lemma default_timeouts_reach_10ms : ¬ default_timeouts_below_10ms_and_5ms.
Proof.
  intros H. specialize (H quiet_world 0 [] (Qeq_refl 1)).
  simpl in H. destruct H as [H _]. revert H. apply Qlt_irrefl.
Qed.

Section shutdown_facts.
Variable w : world.






End shutdown_facts.

(** ** cluster.go: bootstrapCluster *)

Section bootstrap_facts.
Variable w : world.
Implicit Types (nds : gmap Z node) (tr : list effect) (nd : node).
Implicit Types (visited outer : list (Z * node)).

Lemma for_range_app {A} (xs ys : list A) (body : A → run unit) tr :
  for_range (xs ++ ys) body tr
  = match for_range xs body tr with
    | (Done _, tr') => for_range ys body tr'
    | (Fatal msg, tr') => (Fatal msg, tr')
    | (Panic msg, tr') => (Panic msg, tr')
    end.
Proof.
  revert tr. induction xs as [|x xs IH]; intros tr; simpl; [done|].
  rewrite !bind_run. destruct (body x tr) as [[[]| |] tr']; [|done|done].
  apply IH.
Qed.

(** The inner loop for [node1]: with a transport that connects peers, one
    call per peer; without, it fails at the first peer, before any call. *)
Lemma inner_loop_run (node1 : node) visited tr :
  for_range visited (λ '(_, node2), connect_to node1 node2) tr
  = if WithPeers (Transport node1)
    then (Done tt, tr ++ (connect_call node1 <$> peers_of node1 visited))
    else if decide (peers_of node1 visited = [])
         then (Done tt, tr)
         else (Fatal "transport of node %d does not implement WithPeers", tr).
Proof.
  revert tr. unfold peers_of.
  induction visited as [|[j node2] rest IH]; intros tr; simpl.
  - rewrite app_nil_r. destruct (WithPeers _); done.
  - rewrite bind_run. unfold connect_to at 1. rewrite filter_cons.
    destruct (decide (node_addr node2 = node_addr node1)) as [Heq|Hne].
    { rewrite bool_decide_true by done. simpl.
      rewrite decide_False by (intros [H _]; done). apply IH. }
    rewrite bool_decide_false by done. simpl.
    destruct (Bootstrap node2) eqn:Eb; simpl.
    + rewrite decide_True by done.
      destruct (WithPeers (Transport node1)) eqn:Ew.
      * unfold emit. rewrite IH. simpl. by rewrite <- app_assoc.
      * rewrite decide_False by done. done.
    + rewrite decide_False by (intros [_ H]; done). apply IH.
Qed.

Lemma connect_calls_nil nds : connect_calls w nds [] = [].
Proof. done. Qed.

Lemma flagged_cons_true e visited :
  Bootstrap e.2 = true → flagged (e :: visited) = e :: flagged visited.
Proof. intros H. unfold flagged. by rewrite filter_cons_True. Qed.

Lemma flagged_cons_false e visited :
  Bootstrap e.2 = false → flagged (e :: visited) = flagged visited.
Proof. intros H. unfold flagged. rewrite filter_cons_False; [done|]. congruence. Qed.

Lemma connect_calls_cons_true nds e outer :
  Bootstrap e.2 = true →
  connect_calls w nds (e :: outer)
  = (connect_call e.2 <$> peers_of e.2 (range_nodes w (InnerConnect e.1) nds))
    ++ connect_calls w nds outer.
Proof. intros H. unfold connect_calls. by rewrite flagged_cons_true. Qed.

Lemma connect_calls_cons_false nds e outer :
  Bootstrap e.2 = false → connect_calls w nds (e :: outer) = connect_calls w nds outer.
Proof. intros H. unfold connect_calls. by rewrite flagged_cons_false. Qed.

Lemma Forall_is_connect (node1 : node) (l : list node) :
  Forall is_connect (connect_call node1 <$> l).
Proof. apply Forall_fmap, Forall_true. done. Qed.

Lemma connect_calls_are_connects nds outer :
  Forall is_connect (connect_calls w nds outer).
Proof.
  induction outer as [|e outer IH]; [constructor|].
  destruct (Bootstrap e.2) eqn:Eb.
  - rewrite connect_calls_cons_true by done.
    apply Forall_app. split; [apply Forall_is_connect | done].
  - by rewrite connect_calls_cons_false.
Qed.

(** The first pass. It goes through exactly when every flagged node can be
    wired; it then has made all the calls and collected one server per
    flagged node. Otherwise it fails, having made only some of the calls. *)
Lemma connect_pass_run nds outer servers tr :
  (Forall (can_connect w nds) (flagged outer) →
   connect_pass w nds outer servers tr
   = (Done (servers ++ ((λ e, server_of e.1 e.2) <$> flagged outer)),
      tr ++ connect_calls w nds outer))
  ∧ (¬ Forall (can_connect w nds) (flagged outer) →
     ∃ made,
       connect_pass w nds outer servers tr
       = (Fatal "transport of node %d does not implement WithPeers", tr ++ made)
       ∧ made `prefix_of` connect_calls w nds outer).
Proof.
  revert servers tr. induction outer as [|[i node1] rest IH]; intros servers tr.
  - split.
    + intros _. simpl. by rewrite !app_nil_r.
    + intros H. exfalso. apply H. constructor.
  - simpl. destruct (Bootstrap node1) eqn:Eb; simpl.
    + rewrite flagged_cons_true by done.
      rewrite connect_calls_cons_true by done. simpl.
      rewrite bind_run, inner_loop_run.
      destruct (WithPeers (Transport node1)) eqn:Ew.
      * destruct (IH (servers ++ [server_of i node1])
                    (tr ++ (connect_call node1 <$> peers_of node1 (range_nodes w (InnerConnect i) nds))))
          as [IHok IHno].
        split.
        -- intros [_ Hrest]%Forall_cons. rewrite IHok by done.
           by rewrite <- !app_assoc.
        -- intros Hno. destruct IHno as (made & Hrun & Hmade).
           { intros Hrest. apply Hno. constructor; [|done]. by left. }
           eexists. rewrite Hrun, <- app_assoc. split; [done|].
           by apply prefix_app.
      * destruct (decide (peers_of node1 (range_nodes w (InnerConnect i) nds) = []))
          as [Hnil|Hpeers].
        -- rewrite Hnil. simpl.
           destruct (IH (servers ++ [server_of i node1]) tr) as [IHok IHno].
           split.
           ++ intros [_ Hrest]%Forall_cons. rewrite IHok by done.
              by rewrite <- !app_assoc.
           ++ intros Hno. apply IHno. intros Hrest. apply Hno.
              constructor; [|done]. by right.
        -- split.
           ++ intros [[Hw|Hp] _]%Forall_cons; simpl in *; congruence.
           ++ intros _. exists []. rewrite app_nil_r. split; [done | apply prefix_nil].
    + rewrite flagged_cons_false by done.
      rewrite connect_calls_cons_false by done. apply IH.
Qed.

Lemma for_range_cons {A} (x : A) (xs : list A) (body : A → run unit) tr :
  for_range (x :: xs) body tr
  = match body x tr with
    | (Done _, tr') => for_range xs body tr'
    | (Fatal msg, tr') => (Fatal msg, tr')
    | (Panic msg, tr') => (Panic msg, tr')
    end.
Proof. reflexivity. Qed.

Lemma bootstrap_one_run configuration nd tr :
  bootstrap_one w configuration nd tr
  = if Bootstrap nd then
      match raft_BootstrapCluster w tr (Config nd) (Logs nd) (Stable nd)
              (Snapshots nd) (Transport nd) configuration with
      | Some _ => (Fatal "failed to bootstrap cluster: %v",
                   tr ++ [bootstrap_call configuration nd])
      | None => (Done tt, tr ++ [bootstrap_call configuration nd])
      end
    else (Done tt, tr).
Proof.
  unfold bootstrap_one. destruct (Bootstrap nd); simpl; [|done].
  rewrite bind_run. unfold call_BootstrapCluster.
  destruct (raft_BootstrapCluster _ _ _ _ _ _ _ _); done.
Qed.

(** The second pass: one call per flagged node, in the order of the range;
    it stops at the first call the engine rejects. *)
Lemma bootstrap_loop_run configuration visited tr :
  (bootstraps_accepted w configuration tr (flagged visited).*2 →
   for_range visited (λ '(_, nd), bootstrap_one w configuration nd) tr
   = (Done tt, tr ++ (bootstrap_call configuration <$> (flagged visited).*2)))
  ∧ (¬ bootstraps_accepted w configuration tr (flagged visited).*2 →
     ∃ called,
       for_range visited (λ '(_, nd), bootstrap_one w configuration nd) tr
       = (Fatal "failed to bootstrap cluster: %v",
          tr ++ (bootstrap_call configuration <$> called))
       ∧ called `prefix_of` (flagged visited).*2
       ∧ ¬ bootstraps_accepted w configuration tr called).
Proof.
  revert tr. induction visited as [|[i nd] rest IH]; intros tr.
  - split.
    + intros _. simpl. by rewrite app_nil_r.
    + intros H. exfalso. by apply H.
  - rewrite !for_range_cons, !bootstrap_one_run.
    destruct (Bootstrap nd) eqn:Eb.
    + rewrite flagged_cons_true by done. simpl.
      destruct (raft_BootstrapCluster w tr (Config nd) (Logs nd) (Stable nd)
                  (Snapshots nd) (Transport nd) configuration) as [err|] eqn:Eo.
      * split.
        -- intros [H _]. congruence.
        -- intros _. exists [nd]. split; [done|].
           split; [apply prefix_cons, prefix_nil|].
           intros [H _]. congruence.
      * destruct (IH (tr ++ [bootstrap_call configuration nd])) as [IHok IHno].
        split.
        -- intros [_ Hrest]. rewrite IHok by done.
           by rewrite <- app_assoc.
        -- intros Hno. destruct IHno as (called & Hrun & Hpre & Hne).
           { intros Hrest. apply Hno. split; done. }
           exists (nd :: called). rewrite Hrun.
           split; [by rewrite <- app_assoc|]. split; [by apply prefix_cons|].
           intros [_ H]. done.
    + rewrite flagged_cons_false by done. apply IH.
Qed.

Lemma bootstrapCluster_unfold nds tr :
  bootstrapCluster w nds tr
  = match connect_pass w nds (range_nodes w OuterConnect nds) [] tr with
    | (Done servers, tr') =>
        for_range (range_nodes w BootstrapLoop nds)
          (λ '(_, nd), bootstrap_one w {| Servers := servers |} nd) tr'
    | (Fatal msg, tr') => (Fatal msg, tr')
    | (Panic msg, tr') => (Panic msg, tr')
    end.
Proof. reflexivity. Qed.

(** The three ways bootstrapCluster can go. *)
Lemma bootstrapCluster_run nds tr :
  let outer := range_nodes w OuterConnect nds in
  let boot := (flagged (range_nodes w BootstrapLoop nds)).*2 in
  let made_all := connect_calls w nds outer in
  (¬ Forall (can_connect w nds) (flagged outer) →
   ∃ made,
     bootstrapCluster w nds tr
     = (Fatal "transport of node %d does not implement WithPeers", tr ++ made)
     ∧ made `prefix_of` made_all)
  ∧ (Forall (can_connect w nds) (flagged outer) →
     bootstraps_accepted w (membership w nds) (tr ++ made_all) boot →
     bootstrapCluster w nds tr
     = (Done tt, tr ++ made_all ++ (bootstrap_call (membership w nds) <$> boot)))
  ∧ (Forall (can_connect w nds) (flagged outer) →
     ¬ bootstraps_accepted w (membership w nds) (tr ++ made_all) boot →
     ∃ called,
       bootstrapCluster w nds tr
       = (Fatal "failed to bootstrap cluster: %v",
          tr ++ made_all ++ (bootstrap_call (membership w nds) <$> called))
       ∧ called `prefix_of` boot
       ∧ ¬ bootstraps_accepted w (membership w nds) (tr ++ made_all) called).
Proof.
  cbv zeta. rewrite bootstrapCluster_unfold.
  destruct (connect_pass_run nds (range_nodes w OuterConnect nds) [] tr) as [Hok Hno].
  split; [|split].
  - intros Hc. destruct (Hno Hc) as (made & Hrun & Hpre).
    exists made. rewrite Hrun. done.
  - intros Hc Hacc. rewrite (Hok Hc), app_nil_l.
    fold (membership w nds).
    destruct (bootstrap_loop_run (membership w nds)
                (range_nodes w BootstrapLoop nds)
                (tr ++ connect_calls w nds (range_nodes w OuterConnect nds))) as [Hb _].
    rewrite (Hb Hacc). by rewrite <- app_assoc.
  - intros Hc Hacc. rewrite (Hok Hc), app_nil_l.
    fold (membership w nds).
    destruct (bootstrap_loop_run (membership w nds)
                (range_nodes w BootstrapLoop nds)
                (tr ++ connect_calls w nds (range_nodes w OuterConnect nds))) as [_ Hb].
    destruct (Hb Hacc) as (called & Hrun & Hpre & Hne).
    exists called. rewrite Hrun. by rewrite <- app_assoc.
Qed.

End bootstrap_facts.

Section accepted_decidable.
Variable w : world.

Lemma bootstraps_accepted_dec_aux_true configuration tr (called : list node) :
  bootstraps_accepted_dec_aux w configuration tr called = true
  ↔ bootstraps_accepted w configuration tr called.
Proof.
  revert tr. induction called as [|nd rest IH]; intros tr; simpl; [done|].
  destruct (raft_BootstrapCluster w tr _ _ _ _ _ configuration) as [err|].
  - split; [done | intros [H _]; done].
  - rewrite IH. split; [done | intros [_ H]; done].
Qed.

End accepted_decidable.

Section bootstrap_claims.
Variable w : world.
Hypothesis ranges : ranges_visit_each_once w.
Implicit Types (nds : gmap Z node) (tr : list effect) (nd : node).

Lemma range_entry site nds i nd :
  (i, nd) ∈ range_nodes w site nds ↔ nds !! i = Some nd.
Proof. rewrite (ranges site nds). apply elem_of_map_to_list. Qed.

Lemma flagged_entry site nds i nd :
  (i, nd) ∈ flagged (range_nodes w site nds)
  ↔ nds !! i = Some nd ∧ Bootstrap nd = true.
Proof.
  unfold flagged. rewrite list_elem_of_filter, range_entry. simpl. tauto.
Qed.

Lemma flagged_range_perm site nds :
  flagged (range_nodes w site nds) ≡ₚ flagged (map_to_list nds).
Proof. unfold flagged. by rewrite (ranges site nds). Qed.

Lemma peer_entry (node1 node2 : node) site nds :
  node2 ∈ peers_of node1 (range_nodes w site nds)
  ↔ node_addr node2 ≠ node_addr node1 ∧ Bootstrap node2 = true
    ∧ ∃ j, nds !! j = Some node2.
Proof.
  unfold peers_of. rewrite list_elem_of_filter, list_elem_of_fmap. split.
  - intros [[H1 H2] ([j n] & -> & Hin)]. apply range_entry in Hin. eauto.
  - intros (H1 & H2 & j & Hj). split; [done|].
    exists (j, node2). split; [done|]. by apply range_entry.
Qed.

(** The calls of a first pass that goes through are the ordered pairs of
    distinct flagged nodes. *)
Lemma connect_call_entry nds e :
  e ∈ connect_calls w nds (range_nodes w OuterConnect nds)
  ↔ ∃ i j (node1 node2 : node),
      nds !! i = Some node1 ∧ nds !! j = Some node2
      ∧ Bootstrap node1 = true ∧ Bootstrap node2 = true
      ∧ node_addr node2 ≠ node_addr node1
      ∧ e = connect_call node1 node2.
Proof.
  unfold connect_calls. rewrite list_elem_of_bind. split.
  - intros ([i node1] & Hin & Hfl). simpl in Hin.
    apply list_elem_of_fmap in Hin as (node2 & -> & Hpeer).
    apply flagged_entry in Hfl as [Hi Hb1].
    apply peer_entry in Hpeer as (Hne & Hb2 & j & Hj).
    exists i, j, node1, node2. done.
  - intros (i & j & node1 & node2 & Hi & Hj & Hb1 & Hb2 & Hne & ->).
    exists (i, node1). split.
    + simpl. apply list_elem_of_fmap_2. apply peer_entry. eauto.
    + by apply flagged_entry.
Qed.

Lemma membership_entry nds s :
  s ∈ Servers (membership w nds)
  ↔ ∃ i nd, nds !! i = Some nd ∧ Bootstrap nd = true ∧ s = server_of i nd.
Proof.
  unfold membership. simpl. rewrite list_elem_of_fmap. split.
  - intros ([i nd] & -> & Hin). apply flagged_entry in Hin as [Hi Hb]. eauto.
  - intros (i & nd & Hi & Hb & ->). exists (i, nd). split; [done|].
    by apply flagged_entry.
Qed.

Lemma outcome_unit_cases (o : outcome unit) :
  o ≠ Done tt → is_fatal o = true ∨ ∃ msg, o = Panic msg.
Proof. destruct o as [[]|msg|msg]; [done | by left | right; eauto]. Qed.

(** bootstrapCluster ends in one of its three ways. *)
Lemma bootstrapCluster_shape nds tr :
  ∃ made called,
    (bootstrapCluster w nds tr).2
    = tr ++ made ++ (bootstrap_call (membership w nds) <$> called)
    ∧ made `prefix_of` connect_calls w nds (range_nodes w OuterConnect nds)
    ∧ called `prefix_of` (flagged (range_nodes w BootstrapLoop nds)).*2
    ∧ ((bootstrapCluster w nds tr).1 = Done tt →
       made = connect_calls w nds (range_nodes w OuterConnect nds)
       ∧ called = (flagged (range_nodes w BootstrapLoop nds)).*2
       ∧ bootstraps_accepted w (membership w nds) (tr ++ made) called)
    ∧ (¬ bootstraps_accepted w (membership w nds) (tr ++ made) called →
       (bootstrapCluster w nds tr).1 = Fatal "failed to bootstrap cluster: %v")
    ∧ (¬ Forall (can_connect w nds) (flagged (range_nodes w OuterConnect nds)) →
       (bootstrapCluster w nds tr).1
       = Fatal "transport of node %d does not implement WithPeers"
       ∧ called = [])
    ∧ (Forall (can_connect w nds) (flagged (range_nodes w OuterConnect nds)) →
       made = connect_calls w nds (range_nodes w OuterConnect nds))
    ∧ ((bootstrapCluster w nds tr).1 = Done tt
       ∨ is_fatal (bootstrapCluster w nds tr).1 = true).
Proof.
  destruct (bootstrapCluster_run w nds tr) as (Hwire & Hok & Hrej).
  destruct (decide (Forall (can_connect w nds)
                      (flagged (range_nodes w OuterConnect nds)))) as [Hc|Hc].
  - destruct (decide (bootstraps_accepted_dec_aux w (membership w nds)
                (tr ++ connect_calls w nds (range_nodes w OuterConnect nds))
                (flagged (range_nodes w BootstrapLoop nds)).*2 = true)) as [Ha|Ha].
    + apply bootstraps_accepted_dec_aux_true in Ha.
      rewrite (Hok Hc Ha). eexists _, _. split; [reflexivity|]. simpl.
      split; [done|]. split; [done|]. split; [done|].
      split; [intros H; contradiction|]. split; [intros H; contradiction|].
      split; [done|]. by left.
    + rewrite bootstraps_accepted_dec_aux_true in Ha.
      destruct (Hrej Hc Ha) as (called & Hrun & Hpre & Hno).
      rewrite Hrun. eexists _, called. split; [reflexivity|]. simpl.
      split; [done|]. split; [done|]. split; [done|].
      split; [done|]. split; [intros H; contradiction|].
      split; [done|]. by right.
  - destruct (Hwire Hc) as (made & Hrun & Hpre). rewrite Hrun.
    exists made, []. simpl. rewrite app_nil_r.
    split; [done|]. split; [done|]. split; [apply prefix_nil|].
    split; [done|]. split; [intros H; exfalso; by apply H|].
    split; [done|]. split; [intros H; contradiction|]. by right.
Qed.

End bootstrap_claims.

(** ** cluster.go: Cluster *)

Section cluster_facts.
Variable w : world.
Implicit Types (c : cluster) (tr : list effect) (knobs : list Knob).
Implicit Types (fsms : list raft_FSM) (rafts : list raft_Raft).

Lemma Cluster_phases fsms knobs tr :
  Cluster w fsms knobs tr
  = match dependencies w (length fsms) knobs tr with
    | (Done c, tr1) =>
        match bootstrapCluster w (nodes c) tr1 with
        | (Done _, tr2) =>
            match start_nodes w c 0 fsms (replicate (length fsms) nilRaft) tr2 with
            | (Done rafts, tr3) =>
                match for_range knobs (λ knob, post knob rafts) tr3 with
                | (Done _, tr4) => (Done (rafts, Shutdown w rafts), tr4)
                | (Fatal msg, tr4) => (Fatal msg, tr4)
                | (Panic msg, tr4) => (Panic msg, tr4)
                end
            | (Fatal msg, tr3) => (Fatal msg, tr3)
            | (Panic msg, tr3) => (Panic msg, tr3)
            end
        | (Fatal msg, tr2) => (Fatal msg, tr2)
        | (Panic msg, tr2) => (Panic msg, tr2)
        end
    | (Fatal msg, tr1) => (Fatal msg, tr1)
    | (Panic msg, tr1) => (Panic msg, tr1)
    end.
Proof.
  unfold Cluster, dependencies. rewrite !bind_run.
  destruct (default_nodes w (length fsms) 0 {| nodes := ∅ |} tr) as [[c0| |] tr0];
    [|done|done].
  rewrite bind_run.
  destruct (pre_knobs knobs c0 tr0) as [[c| |] tr1]; [|done|done].
  rewrite bind_run.
  destruct (bootstrapCluster w (nodes c) tr1) as [[[]| |] tr2]; [|done|done].
  rewrite bind_run.
  destruct (start_nodes w c 0 fsms (replicate (length fsms) nilRaft) tr2)
    as [[rafts| |] tr3]; [|done|done].
  rewrite bind_run.
  destruct (for_range knobs (λ knob, post knob rafts) tr3) as [[[]| |] tr4]; done.
Qed.

(** The loop that allocates the default nodes always goes through; it
    fills the indices from [i] on and touches no other. *)
Lemma default_nodes_run count i c tr :
  ∃ c' tr',
    default_nodes w count i c tr = (Done c', tr')
    ∧ (∀ k, k < i ∨ i + Z.of_nat count ≤ k → nodes c' !! k = nodes c !! k)
    ∧ (∀ k, i ≤ k < i + Z.of_nat count →
         ∃ nd, nodes c' !! k = Some nd
               ∧ Bootstrap nd = true
               ∧ LocalID (Config nd) = Itoa k
               ∧ LocalAddr (Transport nd) = Itoa k
               ∧ WithPeers (Transport nd) = true).
Proof.
  revert i c tr. induction count as [|count IH]; intros i c tr.
  - exists c, tr. split; [done|]. split; [done|]. intros k Hk. lia.
  - destruct (newDefaultNode_run w i tr)
      as (nd & tr1 & Hnd & _ & Hb & Hid & Haddr & Hwp & _).
    destruct (IH (i + 1) {| nodes := <[i := nd]> (nodes c) |} tr1)
      as (c' & tr' & Hrun & Hout & Hin).
    exists c', tr'. split.
    { simpl. rewrite bind_run, Hnd. exact Hrun. }
    split.
    + intros k Hk. rewrite Hout by lia. simpl.
      apply lookup_insert_ne. lia.
    + intros k Hk. destruct (decide (k = i)) as [->|Hne].
      * exists nd. rewrite Hout by lia. simpl.
        rewrite lookup_insert_eq. done.
      * apply Hin. lia.
Qed.

Lemma default_nodes_dense n tr c' tr' :
  default_nodes w n 0 {| nodes := ∅ |} tr = (Done c', tr') → dense n c'.
Proof.
  intros Hrun i.
  destruct (default_nodes_run n 0 {| nodes := ∅ |} tr) as (c1 & tr1 & Hrun1 & Hout & Hin).
  rewrite Hrun in Hrun1. simplify_eq. split.
  - intros Hsome.
    destruct (decide (0 ≤ i < Z.of_nat n)) as [|Hno]; [done|].
    rewrite Hout in Hsome by lia. simpl in Hsome.
    rewrite lookup_empty in Hsome. by destruct Hsome.
  - intros Hi. destruct (Hin i) as (nd & Hnd & _); [lia|]. by rewrite Hnd.
Qed.



(** The loop that starts the nodes only adds to the log. *)
Lemma start_nodes_extends c i fsms rafts tr :
  tr `prefix_of` (start_nodes w c i fsms rafts tr).2.
Proof.
  revert i rafts tr. induction fsms as [|fsm rest IH]; intros i rafts tr; simpl.
  - done.
  - rewrite bind_run. unfold newRaft.
    destruct (nodes c !! i) as [nd|]; [|done].
    unfold call_NewRaft.
    destruct (raft_NewRaft w tr _ fsm _ _ _ _) as [r [e|]]; simpl.
    + by apply prefix_app_r.
    + etrans; [|apply IH]. by apply prefix_app_r.
Qed.

(** The loop that starts the nodes: when it goes through, the slice has
    kept its length, the entries before [i] are untouched, and the entry of
    every FSM is the node the engine made from it and from the
    dependencies of its index. *)
Lemma start_nodes_done c i fsms rafts tr rafts' tr' :
  0 ≤ i →
  start_nodes w c i fsms rafts tr = (Done rafts', tr') →
  length rafts' = length rafts
  ∧ (∀ k, (k < Z.to_nat i)%nat → rafts' !! k = rafts !! k)
  ∧ (∀ k fsm, fsms !! k = Some fsm →
       ∃ nd trk r,
         nodes c !! (i + Z.of_nat k) = Some nd
         ∧ tr `prefix_of` trk
         ∧ trk ++ [CallNewRaft (Config nd) fsm (Logs nd) (Stable nd)
                     (Snapshots nd) (Transport nd)] `prefix_of` tr'
         ∧ raft_NewRaft w trk (Config nd) fsm (Logs nd) (Stable nd)
             (Snapshots nd) (Transport nd) = (r, None)
         ∧ ((Z.to_nat i + k < length rafts)%nat →
            rafts' !! (Z.to_nat i + k)%nat = Some r)).
Proof.
  revert i rafts tr. induction fsms as [|fsm rest IH]; intros i rafts tr Hi Hrun.
  - simpl in Hrun. rewrite ret_run in Hrun. simplify_eq.
    split; [done|]. split; [done|]. intros k f Hk. done.
  - simpl in Hrun. rewrite bind_run in Hrun. unfold newRaft in Hrun.
    destruct (nodes c !! i) as [nd|] eqn:End; [|done].
    unfold call_NewRaft in Hrun.
    destruct (raft_NewRaft w tr (Config nd) fsm (Logs nd) (Stable nd)
                (Snapshots nd) (Transport nd)) as [r err] eqn:Enew.
    destruct err as [e|]; [done|].
    pose proof (start_nodes_extends c (i + 1) rest (<[Z.to_nat i := r]> rafts)
                  (tr ++ [CallNewRaft (Config nd) fsm (Logs nd) (Stable nd)
                            (Snapshots nd) (Transport nd)])) as Hext.
    rewrite Hrun in Hext. simpl in Hext.
    apply IH in Hrun as (Hlen & Hbefore & Hfrom); [|lia].
    rewrite length_insert in Hlen.
    split; [done|]. split.
    + intros k Hk. rewrite Hbefore by lia.
      apply list_lookup_insert_ne. lia.
    + intros k f Hk. destruct k as [|k]; simpl in Hk.
      * simplify_eq. exists nd, tr, r.
        rewrite Z.add_0_r, Nat.add_0_r.
        split; [done|]. split; [done|]. split; [done|].
        split; [done|].
        intros Hin. rewrite Hbefore by lia.
        by apply list_lookup_insert_eq.
      * destruct (Hfrom k f Hk) as (nd' & trk & r' & Hnd' & Hpre & Hpost & Hnew & Hpos).
        exists nd', trk, r'.
        replace (i + Z.of_nat (S k)) with (i + 1 + Z.of_nat k) by lia.
        split; [done|]. split.
        { etrans; [|exact Hpre]. by apply prefix_app_r. }
        split; [done|]. split; [done|].
        intros Hin. replace (Z.to_nat i + S k)%nat with (Z.to_nat (i + 1) + k)%nat by lia.
        apply Hpos. rewrite length_insert. lia.
Qed.

End cluster_facts.

Lemma quiet_ranges : ranges_visit_each_once quiet_world.
Proof. intros site m. reflexivity. Qed.

Lemma Forall_prefix {A} (P : A → Prop) (l k : list A) :
  l `prefix_of` k → Forall P k → Forall P l.
Proof. intros [rest ->] H. by apply Forall_app in H as [H _]. Qed.

Lemma elem_of_prefix_of {A} (l k : list A) x :
  l `prefix_of` k → x ∈ l → x ∈ k.
Proof. intros [rest ->] H. apply elem_of_app. by left. Qed.

Section bootstrap_theorems.
Variable w : world.
Hypothesis ranges : ranges_visit_each_once w.
Implicit Types (nds : gmap Z node) (tr : list effect) (nd : node).

(** C3: the Bootstrap Membership is computed once, from exactly the nodes
    flagged for bootstrap (one server per flagged entry of the table); every
    bootstrap call of the run carries that same list; when bootstrapCluster
    returns, every flagged node has had its one call and the engine accepted
    them all; a call the engine rejects ends the run in a fatal failure; and
    Cluster returns only after bootstrapCluster has returned, failing as it
    does otherwise: no cluster comes out of a partial bootstrap. *)
Theorem bootstrap_all_or_nothing nds tr :
  (∀ s, s ∈ Servers (membership w nds)
        ↔ ∃ i nd, nds !! i = Some nd ∧ Bootstrap nd = true ∧ s = server_of i nd)
  ∧ length (Servers (membership w nds)) = length (flagged (map_to_list nds))
  ∧ (∃ made called,
       (bootstrapCluster w nds tr).2
       = tr ++ made ++ (bootstrap_call (membership w nds) <$> called)
       ∧ Forall is_connect made
       ∧ ((bootstrapCluster w nds tr).1 = Done tt →
          called ≡ₚ (flagged (map_to_list nds)).*2
          ∧ bootstraps_accepted w (membership w nds) (tr ++ made) called)
       ∧ (¬ bootstraps_accepted w (membership w nds) (tr ++ made) called →
          (bootstrapCluster w nds tr).1 = Fatal "failed to bootstrap cluster: %v")
       ∧ ((bootstrapCluster w nds tr).1 = Done tt
          ∨ is_fatal (bootstrapCluster w nds tr).1 = true))
  ∧ (∀ fsms knobs tr0 c tr1 msg,
       dependencies w (length fsms) knobs tr0 = (Done c, tr1) →
       (bootstrapCluster w (nodes c) tr1).1 = Fatal msg →
       Cluster w fsms knobs tr0 = (Fatal msg, (bootstrapCluster w (nodes c) tr1).2))
  ∧ (∀ fsms knobs tr0 res tr',
       Cluster w fsms knobs tr0 = (Done res, tr') →
       ∃ c tr1 tr2,
         dependencies w (length fsms) knobs tr0 = (Done c, tr1)
         ∧ bootstrapCluster w (nodes c) tr1 = (Done tt, tr2)).
Proof.
  split; [apply (membership_entry w ranges)|].
  split.
  { unfold membership. simpl. rewrite length_fmap.
    apply Permutation_length, (flagged_range_perm w ranges). }
  split.
  { destruct (bootstrapCluster_shape w nds tr)
      as (made & called & Hlog & Hmade & Hcalled & Hdone & Hrej & _ & _ & Hends).
    exists made, called. split; [done|]. split.
    { eapply Forall_prefix; [exact Hmade | apply connect_calls_are_connects]. }
    split; [|done].
    intros Hd. destruct (Hdone Hd) as (_ & -> & Hacc). split; [|done].
    by rewrite (flagged_range_perm w ranges). }
  split.
  - intros fsms knobs tr0 c tr1 msg Hdep Hboot.
    rewrite Cluster_phases, Hdep.
    destruct (bootstrapCluster w (nodes c) tr1) as [o tr2]. simpl in *. by subst o.
  - intros fsms knobs tr0 res tr' Hrun. rewrite Cluster_phases in Hrun.
    destruct (dependencies w (length fsms) knobs tr0) as [[c| |] tr1]; [|done|done].
    destruct (bootstrapCluster w (nodes c) tr1) as [[[]| |] tr2] eqn:Eb; [|done|done].
    by exists c, tr1, tr2.
Qed.

(** C4, as amended: all the Connect calls of bootstrapCluster come before
    its first bootstrap call; when it returns, and already when it makes a
    bootstrap call, the transport of every flagged node has been connected
    to the transport of every other flagged node, in both directions; only
    pairs of distinct flagged nodes are ever
    connected, so a node opted out of bootstrap is neither end of a call;
    and the construction fails fatally, before any bootstrap call, if the
    transport of a flagged node that has another flagged node to connect to
    does not support peer connection. *)
Theorem bootstrap_connects_full_mesh nds tr :
  ∃ made called,
    (bootstrapCluster w nds tr).2 = tr ++ made ++ called
    ∧ Forall is_connect made
    ∧ Forall is_bootstrap called
    ∧ ((bootstrapCluster w nds tr).1 = Done tt ∨ called ≠ [] →
       ∀ i j (node1 node2 : node),
         nds !! i = Some node1 → nds !! j = Some node2 →
         Bootstrap node1 = true → Bootstrap node2 = true →
         node_addr node2 ≠ node_addr node1 →
         connect_call node1 node2 ∈ made ∧ connect_call node2 node1 ∈ made)
    ∧ (∀ e, e ∈ made →
         ∃ i j (node1 node2 : node),
           nds !! i = Some node1 ∧ nds !! j = Some node2
           ∧ Bootstrap node1 = true ∧ Bootstrap node2 = true
           ∧ node_addr node2 ≠ node_addr node1
           ∧ e = connect_call node1 node2)
    ∧ (∀ i j (node1 node2 : node),
         nds !! i = Some node1 → nds !! j = Some node2 →
         Bootstrap node1 = true → Bootstrap node2 = true →
         node_addr node2 ≠ node_addr node1 →
         WithPeers (Transport node1) = false →
         (bootstrapCluster w nds tr).1
         = Fatal "transport of node %d does not implement WithPeers"
         ∧ called = []).
Proof.
  destruct (bootstrapCluster_shape w nds tr)
    as (made & called & Hlog & Hmade & Hcalled & Hdone & _ & Hwire & Hfull & _).
  exists made, (bootstrap_call (membership w nds) <$> called).
  split; [done|]. split.
  { eapply Forall_prefix; [exact Hmade | apply connect_calls_are_connects]. }
  split; [apply Forall_fmap, Forall_true; done|].
  split.
  { intros Hd i j node1 node2 Hi Hj Hb1 Hb2 Hne.
    assert (Hm : made = connect_calls w nds (range_nodes w OuterConnect nds)).
    { destruct (decide (Forall (can_connect w nds)
                          (flagged (range_nodes w OuterConnect nds)))) as [Hc|Hc];
        [by apply Hfull|].
      destruct (Hwire Hc) as [Hf Hnil]. destruct Hd as [Hd|Hd].
      - rewrite Hf in Hd. done.
      - rewrite Hnil in Hd. done. }
    rewrite Hm.
    split; apply (connect_call_entry w ranges).
    - exists i, j, node1, node2. done.
    - exists j, i, node2, node1. split; [done|]. split; [done|].
      split; [done|]. split; [done|]. split; [congruence | done]. }
  split.
  { intros e He. apply (connect_call_entry w ranges).
    by eapply elem_of_prefix_of. }
  intros i j node1 node2 Hi Hj Hb1 Hb2 Hne Hw.
  destruct Hwire as [Hf Hnil].
  { intros Hall. rewrite Forall_forall in Hall.
    assert (Hin : (i, node1) ∈ flagged (range_nodes w OuterConnect nds))
      by by apply (flagged_entry w ranges).
    destruct (Hall _ Hin) as [Hw'|Hp]; simpl in *; [congruence|].
    assert (Hpeer : node2 ∈ peers_of node1 (range_nodes w (InnerConnect i) nds)).
    { apply (peer_entry w ranges). eauto. }
    rewrite Hp in Hpeer. by apply elem_of_nil in Hpeer. }
  split; [done|]. by rewrite Hnil.
Qed.

End bootstrap_theorems.

(** A lone flagged node whose transport cannot connect peers is
    bootstrapped all the same: there is nobody to connect it to. *)
Lemma lone_node_without_WithPeers_bootstraps : ¬ unsupported_transport_is_fatal.
Proof.
  intros H.
  specialize (H quiet_world {[ 0 := lone_node ]} [] 0 lone_node quiet_ranges).
  rewrite lookup_singleton_eq in H.
  specialize (H eq_refl eq_refl eq_refl).
  unfold bootstrapCluster in H. simpl in H.
  rewrite map_to_list_singleton in H. simpl in H. discriminate H.
Qed.

Section cluster_theorems.
Variable w : world.
Implicit Types (c : cluster) (tr : list effect) (knobs : list Knob).
Implicit Types (fsms : list raft_FSM) (rafts : list raft_Raft).



End cluster_theorems.


Lemma dense_size n c : dense n c → size (nodes c) = n.
Proof.
  intros Hc.
  assert (Hdom : dom (nodes c) = list_to_set (seqZ 0 (Z.of_nat n))).
  { apply set_eq. intros i.
    rewrite elem_of_dom, (Hc i), elem_of_list_to_set, elem_of_seqZ. lia. }
  rewrite <- size_dom, Hdom, size_list_to_set by apply NoDup_seqZ.
  rewrite length_seqZ. lia.
Qed.



(** ** The theorems at work on concrete runs *)

Lemma Other_avoids_excluded_witness :
  (2 ≤ length three_rafts)%nat
  ∧ 0 ≤ Other three_rafts [0] < Z.of_nat (length three_rafts).
Proof.
  split; [simpl; lia|].
  apply (proj2 (proj2 (proj2 (Other_avoids_excluded three_rafts [0]))) 0);
    [simpl; lia | reflexivity].
Defined.

Example Other_skips_the_leader : Other three_rafts [0] = 1.
Proof. reflexivity. Qed.

Example Other_none_left : Other three_rafts [2; 0; 1] = -1.
Proof. reflexivity. Qed.

Lemma bootstrap_all_or_nothing_witness :
  ranges_visit_each_once quiet_world
  ∧ (∀ s, s ∈ Servers (membership quiet_world two_nodes)
          ↔ ∃ i nd, two_nodes !! i = Some nd ∧ Bootstrap nd = true
                    ∧ s = server_of i nd)
  ∧ length (Servers (membership quiet_world two_nodes))
    = length (flagged (map_to_list two_nodes)).
Proof.
  split; [exact quiet_ranges|].
  destruct (bootstrap_all_or_nothing quiet_world quiet_ranges two_nodes [])
    as (H1 & H2 & _).
  split; [exact H1 | exact H2].
Defined.

Lemma bootstrap_connects_full_mesh_witness :
  ranges_visit_each_once quiet_world
  ∧ ∃ made called,
      (bootstrapCluster quiet_world two_nodes []).2 = [] ++ made ++ called
      ∧ Forall is_connect made
      ∧ Forall is_bootstrap called.
Proof.
  split; [exact quiet_ranges|].
  destruct (bootstrap_connects_full_mesh quiet_world quiet_ranges two_nodes [])
    as (made & called & H1 & H2 & H3 & _).
  exists made, called. split; [exact H1|]. split; [exact H2 | exact H3].
Defined.

(** Two default nodes: two Connect calls, then two bootstrap calls with the
    same two servers. *)
Example two_nodes_bootstrapped :
  (bootstrapCluster quiet_world two_nodes []).1 = Done tt
  ∧ ID <$> Servers (membership quiet_world two_nodes) = ["1"; "0"]
  ∧ length (filter is_connect (bootstrapCluster quiet_world two_nodes []).2) = 2%nat
  ∧ length (filter is_bootstrap (bootstrapCluster quiet_world two_nodes []).2) = 2%nat.
Proof. vm_compute. done. Qed.

Example Cluster_of_two :
  ∃ cleanup tr',
    Cluster quiet_world two_fsms [] [] = (Done ([RaftNode 14; RaftNode 15], cleanup), tr').
Proof. eexists _, _. vm_compute. reflexivity. Qed.

(** The notify knob and a knob that opts node 1 out: both nodes are
    started, node 0 alone is bootstrapped, with a membership of one, and
    nothing is connected. *)
Example Cluster_with_knobs :
  ∃ cleanup tr',
    Cluster quiet_world two_fsms [Notify; opt_out 1] []
    = (Done ([RaftNode 12; RaftNode 13], cleanup), tr')
    ∧ filter is_connect tr' = []
    ∧ length (filter is_bootstrap tr') = 1%nat.
Proof. eexists _, _. vm_compute. done. Qed.

Example Shutdown_of_quiet_nodes :
  (Shutdown quiet_world three_rafts []).1 = Done tt.
Proof. reflexivity. Qed.

Example Shutdown_of_slow_node :
  (Shutdown troubled_world [RaftNode 0; RaftNode 1] []).1
  = Fatal "cluster did not shutdown within 5 second".
Proof. reflexivity. Qed.

Example Shutdown_of_failing_node :
  (Shutdown troubled_world [RaftNode 2; RaftNode 0] []).1
  = Fatal "failed to shutdown raft node: %v".
Proof. reflexivity. Qed.

Example NextAcquired_skips_the_loss :
  NextAcquired confirm_leader confirm_check three_rafts (10 * Millisecond) 0 election_feed
  = Done 0.
Proof. reflexivity. Qed.

Example NextLost_first :
  NextLost confirm_leader confirm_check three_rafts (10 * Millisecond) 0 election_feed
  = Done 2.
Proof. reflexivity. Qed.

(** With 2 ms the loss is seen in time, the acquisition is not. *)
Example NextAcquired_out_of_budget :
  NextAcquired confirm_leader confirm_check three_rafts (2 * Millisecond) 0 election_feed
  = Fatal "no notification received within %s".
Proof. reflexivity. Qed.

(** All three nodes shut down: the aggregator forwards two closures and
    leaves; the closure of the last channel is never received. *)
Example watch_all_shut_down :
  watch [Close 0%nat; Close 1%nat; Close 2%nat; Pick 0%nat; Pick 0%nat; Pick 0%nat]
    three_nodes
  = {| knob := {| ch := [{| On := 0; Acquired := false |};
                         {| On := 0; Acquired := false |}];
                  notifyChs := replicate 3 {| queued := []; closed := true;
                                              capacity := 1000 |} |};
       cases := [2%nat] |}.
Proof. reflexivity. Qed.

(** A single-node cluster: the aggregator leaves at once and the signal of
    the only node is never forwarded. *)
Example watch_single_node :
  watch [Signal 0%nat true; Pick 0%nat]
    {| ch := []; notifyChs := [make_chan 1000] |}
  = {| knob := {| ch := [];
                  notifyChs := [{| queued := [true]; closed := false; capacity := 1000 |}] |};
       cases := [0%nat] |}.
Proof. reflexivity. Qed.

(** * Part III: further facts on the code *)

(** ** Other, called again *)

Section other_again.
Context {Raft : Type}.
Implicit Types (rafts : list Raft) (indexes : list Z).

(** X1: excluding the index Other has returned and calling it again gives
    the next index that is not excluded: a larger one, with every index in
    between excluded, or -1 when no index after the first is free. *)
Theorem Other_next_free rafts indexes :
  Other rafts indexes ≠ -1 →
  (Other rafts indexes < Other rafts (Other rafts indexes :: indexes)
   ∧ Other rafts (Other rafts indexes :: indexes) < Z.of_nat (length rafts)
   ∧ (Other rafts (Other rafts indexes :: indexes) ∉ indexes)
   ∧ ∀ k, Other rafts indexes < k < Other rafts (Other rafts indexes :: indexes) →
          k ∈ indexes)
  ∨ (Other rafts (Other rafts indexes :: indexes) = -1
     ∧ ∀ k, Other rafts indexes < k < Z.of_nat (length rafts) → k ∈ indexes).
Proof.
  intros Hfound.
  destruct (Other_smallest_free_index_aux rafts indexes) as [(Hr & Hfree & Hmin)|[H _]];
    [|done].
  destruct (Other_smallest_free_index_aux rafts (Other rafts indexes :: indexes))
    as [(Hr' & Hfree' & Hmin')|[Hnone Hall]].
  - left. apply not_elem_of_cons in Hfree' as [Hne Hfree'].
    assert (Other rafts indexes < Other rafts (Other rafts indexes :: indexes)).
    { destruct (Z.lt_trichotomy (Other rafts indexes)
                  (Other rafts (Other rafts indexes :: indexes))) as [?|[?|Hlt]];
        [done | congruence |].
      exfalso. apply Hfree', Hmin. lia. }
    split; [done|]. split; [lia|]. split; [done|].
    intros k Hk. assert (Hin : k ∈ Other rafts indexes :: indexes) by (apply Hmin'; lia).
    apply elem_of_cons in Hin as [?|?]; [lia | done].
  - right. split; [done|]. intros k Hk.
    assert (Hin : k ∈ Other rafts indexes :: indexes) by (apply Hall; lia).
    apply elem_of_cons in Hin as [?|?]; [lia | done].
Qed.

(** X2: Other looks at the length of the slice and at which of its indices
    are excluded, and at nothing else: order and repetition of the excluded
    indices, excluded values outside the slice and the instances themselves
    do not change the result. *)
Theorem Other_same_exclusions {Raft' : Type} rafts (rafts' : list Raft')
    indexes indexes' :
  length rafts = length rafts' →
  (∀ k, 0 ≤ k < Z.of_nat (length rafts) → k ∈ indexes ↔ k ∈ indexes') →
  Other rafts indexes = Other rafts' indexes'.
Proof.
  intros Hlen Hsame.
  destruct (Other_smallest_free_index_aux rafts indexes) as [(Hr & Hfree & Hmin)|[Hn Hall]];
    destruct (Other_smallest_free_index_aux rafts' indexes')
      as [(Hr' & Hfree' & Hmin')|[Hn' Hall']];
    rewrite <- ?Hlen in *.
  - destruct (Z.lt_trichotomy (Other rafts indexes) (Other rafts' indexes'))
      as [Hlt|[?|Hlt]]; [|done|].
    + exfalso. apply Hfree, Hsame; [lia|]. apply Hmin'. lia.
    + exfalso. apply Hfree', Hsame; [lia|]. apply Hmin. lia.
  - exfalso. apply Hfree, Hsame; [lia|]. apply Hall'. lia.
  - exfalso. apply Hfree', Hsame; [lia|]. apply Hall. lia.
  - congruence.
Qed.

End other_again.

Lemma Other_next_free_witness :
  Other three_rafts [1] ≠ -1
  ∧ ((Other three_rafts [1] < Other three_rafts (Other three_rafts [1] :: [1])
      ∧ Other three_rafts (Other three_rafts [1] :: [1]) < Z.of_nat (length three_rafts)
      ∧ (Other three_rafts (Other three_rafts [1] :: [1]) ∉ [1])
      ∧ ∀ k, Other three_rafts [1] < k < Other three_rafts (Other three_rafts [1] :: [1]) →
             k ∈ [1])
     ∨ (Other three_rafts (Other three_rafts [1] :: [1]) = -1
        ∧ ∀ k, Other three_rafts [1] < k < Z.of_nat (length three_rafts) → k ∈ [1])).
Proof.
  assert (H : Other three_rafts [1] ≠ -1) by (vm_compute; discriminate).
  split; [exact H|]. exact (Other_next_free three_rafts [1] H).
Defined.

Lemma Other_same_exclusions_witness :
  Other three_rafts [0; 0; 1; 7] = Other [FSM 0; FSM 1; FSM 2] [1; 0].
Proof.
  apply Other_same_exclusions; [reflexivity|].
  intros k Hk. rewrite !elem_of_cons, !elem_of_nil. simpl in Hk. lia.
Defined.

(** ** The aggregator over whole runs *)

Section watch_runs.
Implicit Types (s : watching) (k : NotifyKnob) (i c n : nat).

Lemma run_shape_start k : run_shape (length (notifyChs k)) (watch_start k).
Proof. split; [done|]. simpl. done. Qed.

Lemma run_shape_on_channel n c f s : run_shape n s → run_shape n (on_channel c f s).
Proof. intros [Hl Hs]. split; [|done]. simpl. by rewrite length_alter. Qed.

Lemma run_shape_round n i s s' :
  run_shape n s → watch_iteration i s = Next s' → run_shape n s'.
Proof.
  intros [Hl Hs] H.
  apply watch_iteration_Next in H as (_ & c & chn & v & ok & chn' & _ & _ & _ & ->).
  split; simpl.
  - by rewrite length_insert.
  - destruct ok; [done|]. rewrite <- delete_take_drop.
    etrans; [apply sublist_delete | done].
Qed.

(** The index a round sends is below the number of live channels. *)
Lemma round_names_node n i s s' :
  run_shape n s → watch_iteration i s = Next s' →
  ∃ e, ch (knob s') = ch (knob s) ++ [e] ∧ names_node n e.
Proof.
  intros [Hl Hs] H.
  apply watch_iteration_Next in H as (_ & c & chn & v & ok & chn' & Hc & _ & _ & ->).
  eexists. split; [reflexivity|]. unfold names_node. simpl.
  apply lookup_lt_Some in Hc. apply sublist_length in Hs.
  rewrite length_seq in Hs. lia.
Qed.

Lemma watch_loop_names_nodes n schedule s :
  run_shape n s →
  ∃ new, ch (knob (watch_loop schedule s)) = ch (knob s) ++ new
         ∧ Forall (names_node n) new.
Proof.
  revert s. induction schedule as [|a rest IH]; intros s Hs; simpl.
  - exists []. by rewrite app_nil_r.
  - destruct a as [i|c v|c].
    + destruct (watch_iteration i s) as [| |s'] eqn:E.
      1,2: exists []; by rewrite app_nil_r.
      destruct (round_names_node n i s s' Hs E) as (e & He & Hn).
      destruct (IH s' (run_shape_round n i s s' Hs E)) as (new & Hnew & Hall).
      exists (e :: new). rewrite Hnew, He, <- app_assoc. split; [done|].
      by constructor.
    + destruct (IH _ (run_shape_on_channel n c (signal v) s Hs)) as (new & Hnew & Hall).
      exists new. by rewrite Hnew.
    + destruct (IH _ (run_shape_on_channel n c close s Hs)) as (new & Hnew & Hall).
      exists new. by rewrite Hnew.
Qed.

(** X3: whatever the nodes and the scheduler do, the aggregator only ever
    appends to what was sent on the output channel, and every event it
    appends carries an index in [0, n), n being the number of per-node
    channels: shifted or not, the index always names a node of the
    cluster. *)
Theorem watch_output_names_nodes schedule k :
  ∃ new,
    ch (knob (watch schedule k)) = ch k ++ new
    ∧ Forall (names_node (length (notifyChs k))) new.
Proof.
  apply (watch_loop_names_nodes _ schedule (watch_start k)), run_shape_start.
Qed.

Lemma removed_on_channel c f s :
  (∀ x, closed x = true → queued x = [] → closed (f x) = true ∧ queued (f x) = []) →
  removed_are_done s → removed_are_done (on_channel c f s).
Proof.
  intros Hf Hs c' chn Hl Hnot. simpl in *.
  destruct (decide (c = c')) as [->|Hne].
  - rewrite list_lookup_alter_eq in Hl.
    destruct (notifyChs (knob s) !! c') as [x|] eqn:Ex; simplify_eq/=.
    destruct (Hs c' x Ex Hnot). by apply Hf.
  - rewrite list_lookup_alter_ne in Hl by done. by apply (Hs c' chn).
Qed.

Lemma removed_round i s s' :
  removed_are_done s → watch_iteration i s = Next s' → removed_are_done s'.
Proof.
  intros Hs H.
  apply watch_iteration_Next in H as (_ & c & chn & v & ok & chn' & Hc & Hchn & Hr & ->).
  intros c' x Hl Hnot. simpl in *.
  destruct ok.
  - assert (c ≠ c') by (intros ->; apply Hnot; by eapply list_elem_of_lookup_2).
    rewrite list_lookup_insert_ne in Hl by done. by apply (Hs c' x).
  - apply receive_ok_false in Hr as (-> & -> & Hq & Hcl).
    destruct (decide (c = c')) as [->|Hne].
    + rewrite list_lookup_insert_eq in Hl by (by eapply lookup_lt_Some).
      by simplify_eq.
    + rewrite list_lookup_insert_ne in Hl by done. apply (Hs c' x); [done|].
      intros Hin. apply Hnot.
      rewrite <- (take_drop_middle (cases s) i c Hc) in Hin.
      rewrite elem_of_app, elem_of_cons in Hin. rewrite elem_of_app.
      destruct Hin as [?|[?|?]]; [by left | congruence | by right].
Qed.

Lemma removed_watch_loop schedule s :
  removed_are_done s → removed_are_done (watch_loop schedule s).
Proof.
  revert s. induction schedule as [|a rest IH]; intros s Hs; simpl; [done|].
  destruct a as [i|c v|c].
  - destruct (watch_iteration i s) as [| |s'] eqn:E; [done|done|].
    apply IH. by eapply removed_round.
  - apply IH, removed_on_channel; [|done].
    intros x Hc Hq. unfold signal. by rewrite Hc.
  - apply IH, removed_on_channel; [|done].
    intros x Hc Hq. done.
Qed.

Lemma watch_loop_shape n schedule s :
  run_shape n s → run_shape n (watch_loop schedule s).
Proof.
  revert s. induction schedule as [|a rest IH]; intros s Hs; simpl; [done|].
  destruct a as [i|c v|c].
  - destruct (watch_iteration i s) as [| |s'] eqn:E; [done|done|].
    apply IH. by eapply run_shape_round.
  - by apply IH, run_shape_on_channel.
  - by apply IH, run_shape_on_channel.
Qed.

(** X5: along any run the live set is what is left of 0 .. n-1, in order
    and without repetition, the number of channels does not change, and a
    channel is off the live set only if its node has closed it and nothing
    is queued on it: the aggregator drops no channel that could still
    deliver a signal. *)
Theorem watch_drops_only_finished_channels schedule k :
  cases (watch schedule k) `sublist_of` seq 0 (length (notifyChs k))
  ∧ NoDup (cases (watch schedule k))
  ∧ length (notifyChs (knob (watch schedule k))) = length (notifyChs k)
  ∧ ∀ c chn,
      notifyChs (knob (watch schedule k)) !! c = Some chn →
      c ∉ cases (watch schedule k) →
      closed chn = true ∧ queued chn = [].
Proof.
  destruct (watch_loop_shape _ schedule (watch_start k) (run_shape_start k))
    as [Hl Hs].
  split; [done|]. split; [exact (sublist_NoDup _ _ (NoDup_seq _ _) Hs)|].
  split; [done|].
  apply removed_watch_loop. intros c chn Hc Hnot. exfalso. apply Hnot.
  simpl in *. apply elem_of_seq. apply lookup_lt_Some in Hc. lia.
Qed.

End watch_runs.

Section watch_order.
Implicit Types (s : watching) (k : NotifyKnob) (i c : nat).

Lemma delivered_app c out more :
  delivered c (out ++ more) = delivered c out ++ delivered c more.
Proof. unfold delivered. by rewrite filter_app, fmap_app. Qed.

Lemma delivered_one c i v :
  delivered c [{| On := Z.of_nat i; Acquired := v |}]
  = if decide (i = c) then [v] else [].
Proof.
  unfold delivered. rewrite filter_cons. simpl.
  destruct (decide (Z.of_nat i = Z.of_nat c)) as [He|Hne];
    destruct (decide (i = c)) as [?|?]; try done; lia.
Qed.

(** With every channel open and none removed, a round moves the oldest
    queued value of the chosen node to the output, under that node's index,
    and touches nothing else. *)
Lemma open_round i s s' :
  nothing_removed s → all_open (knob s) →
  watch_iteration i s = Next s' →
  nothing_removed s' ∧ all_open (knob s')
  ∧ ∀ c, delivered c (ch (knob s')) ++ pending c (knob s')
         = delivered c (ch (knob s)) ++ pending c (knob s).
Proof.
  intros Hn Ho H.
  apply watch_iteration_Next in H as (_ & c & chn & v & ok & chn' & Hc & Hchn & Hr & ->).
  red in Hn. rewrite Hn in Hc. apply seq_lookup_eq in Hc. subst c.
  assert (Hopen : closed chn = false).
  { red in Ho. rewrite Forall_forall in Ho. apply Ho.
    by eapply list_elem_of_lookup_2. }
  destruct ok.
  2: { apply receive_ok_false in Hr as (_ & _ & _ & Hcl). congruence. }
  apply receive_ok_true in Hr as [Hq Hcl].
  split; [|split]; simpl.
  - red. simpl. by rewrite length_insert.
  - apply Forall_insert; [done | congruence].
  - intros c. rewrite delivered_app, delivered_one. unfold pending. simpl.
    destruct (decide (i = c)) as [->|Hne].
    + rewrite list_lookup_insert_eq by (by eapply lookup_lt_Some).
      rewrite Hchn. simpl. rewrite Hq. by rewrite <- app_assoc.
    + rewrite list_lookup_insert_ne by done. by rewrite app_nil_r.
Qed.

Lemma open_signal c0 v s :
  nothing_removed s → all_open (knob s) →
  nothing_removed (on_channel c0 (signal v) s)
  ∧ all_open (knob (on_channel c0 (signal v) s))
  ∧ ∀ c, ∃ extra,
      pending c (knob (on_channel c0 (signal v) s)) = pending c (knob s) ++ extra
      ∧ extra `sublist_of` (if decide (c0 = c) then [v] else []).
Proof.
  intros Hn Ho. split; [|split].
  - red. simpl. by rewrite length_alter.
  - simpl. apply Forall_alter; [done|]. intros x Hx.
    unfold signal. destruct (_ || _); done.
  - intros c. unfold pending. simpl.
    destruct (decide (c0 = c)) as [->|Hne].
    + rewrite list_lookup_alter_eq.
      destruct (notifyChs (knob s) !! c) as [x|]; simpl.
      * unfold signal. destruct (_ || _); simpl.
        -- exists []. rewrite app_nil_r. split; [done | apply sublist_nil_l].
        -- exists [v]. done.
      * exists []. split; [done | apply sublist_nil_l].
    + rewrite list_lookup_alter_ne by done. exists [].
      rewrite app_nil_r. done.
Qed.

Lemma signals_to_cons_signal c c0 v rest :
  signals_to c (Signal c0 v :: rest)
  = (if decide (c0 = c) then [v] else []) ++ signals_to c rest.
Proof. unfold signals_to. simpl. by destruct (decide (c0 = c)). Qed.

(** X6: as long as no node closes its channel, the aggregator neither
    loses, invents nor reorders a signal: the live set stays 0 .. n-1, and
    for every node, the values forwarded under its index followed by the
    values still queued on its channel are the ones there were before,
    followed by values the node itself has signalled since, in the order it
    signalled them. *)
Theorem watch_keeps_order_while_open schedule s :
  Forall no_close schedule →
  nothing_removed s →
  all_open (knob s) →
  nothing_removed (watch_loop schedule s)
  ∧ all_open (knob (watch_loop schedule s))
  ∧ ∀ c, ∃ extra,
      delivered c (ch (knob (watch_loop schedule s)))
        ++ pending c (knob (watch_loop schedule s))
      = (delivered c (ch (knob s)) ++ pending c (knob s)) ++ extra
      ∧ extra `sublist_of` signals_to c schedule.
Proof.
  intros Hsched. revert s.
  induction Hsched as [|a rest Ha _ IH]; intros s Hn Ho; cbn [watch_loop].
  - split; [done|]. split; [done|]. intros c. exists [].
    rewrite app_nil_r. split; [done | apply sublist_nil_l].
  - destruct a as [i|c0 v|c0]; [| |done].
    + destruct (watch_iteration i s) as [| |s'] eqn:E.
      1,2: split; [done|]; split; [done|]; intros c; exists [];
           rewrite app_nil_r; split; [done | apply sublist_nil_l].
      destruct (open_round i s s' Hn Ho E) as (Hn' & Ho' & Heq).
      destruct (IH s' Hn' Ho') as (Hn'' & Ho'' & Hrest).
      split; [done|]. split; [done|]. intros c.
      destruct (Hrest c) as (extra & He & Hsub).
      exists extra. rewrite He, Heq. split; [done | exact Hsub].
    + destruct (open_signal c0 v s Hn Ho) as (Hn' & Ho' & Hp).
      destruct (IH _ Hn' Ho') as (Hn'' & Ho'' & Hrest).
      split; [done|]. split; [done|]. intros c.
      destruct (Hrest c) as (extra & He & Hsub).
      destruct (Hp c) as (e1 & Hp1 & Hsub1).
      exists (e1 ++ extra). rewrite He, Hp1.
      split; [by rewrite <- !app_assoc|].
      rewrite signals_to_cons_signal. by apply sublist_app.
Qed.

End watch_order.

Lemma watch_keeps_order_while_open_witness :
  Forall no_close [Signal 1%nat true; Signal 1%nat false; Pick 1%nat]
  ∧ nothing_removed (watch_start three_nodes)
  ∧ all_open (knob (watch_start three_nodes))
  ∧ ∀ c, ∃ extra,
      delivered c (ch (knob (watch [Signal 1%nat true; Signal 1%nat false; Pick 1%nat]
                               three_nodes)))
        ++ pending c (knob (watch [Signal 1%nat true; Signal 1%nat false; Pick 1%nat]
                              three_nodes))
      = (delivered c (ch (knob (watch_start three_nodes)))
           ++ pending c (knob (watch_start three_nodes))) ++ extra
      ∧ extra `sublist_of`
          signals_to c [Signal 1%nat true; Signal 1%nat false; Pick 1%nat].
Proof.
  assert (H1 : Forall no_close [Signal 1%nat true; Signal 1%nat false; Pick 1%nat])
    by (repeat constructor).
  assert (H2 : nothing_removed (watch_start three_nodes)) by reflexivity.
  assert (H3 : all_open (knob (watch_start three_nodes))) by (repeat constructor).
  split; [exact H1|]. split; [exact H2|]. split; [exact H3|].
  exact (proj2 (proj2 (watch_keeps_order_while_open _ _ H1 H2 H3))).
Defined.

(** The same run, looked at: node 1 signalled true, then false; true went
    out under index 1, false is still queued. *)
Example watch_in_order :
  delivered 1 (ch (knob (watch [Signal 1%nat true; Signal 1%nat false; Pick 1%nat]
                           three_nodes))) = [true]
  ∧ pending 1 (knob (watch [Signal 1%nat true; Signal 1%nat false; Pick 1%nat]
                       three_nodes)) = [false].
Proof. split; reflexivity. Qed.

(** ** The aggregator and the consumers together *)

Section watch_then_next.
Variable WaitLeader : raft_Raft → Z → outcome unit.
Variable waitTimeout : Z → raft_Raft → Z → string → outcome unit.
Variable rafts : list raft_Raft.

Lemma raft_at_names_node (e : leadershipChange) :
  names_node (length rafts) e → is_panic (raft_at rafts (On e)) = false.
Proof.
  intros [H0 Hn]. unfold raft_at. rewrite bool_decide_true by done.
  destruct (rafts !! Z.to_nat (On e)) as [r|] eqn:E; [done|].
  apply lookup_ge_None in E. lia.
Qed.

(** The consumers panic on no event that names a node. *)
Lemma nextMatching_no_panic timeout acquired now
    (feed : list (Z * leadershipChange)) :
  (∀ r t, is_panic (WaitLeader r t) = false) →
  (∀ t r i msg, is_panic (waitTimeout t r i msg) = false) →
  Forall (λ e, names_node (length rafts) e.2) feed →
  is_panic (nextMatching WaitLeader waitTimeout rafts timeout acquired now feed) = false.
Proof.
  intros Hw Hp Hfeed. revert timeout now.
  induction Hfeed as [|[offered info] rest Hinfo _ IH]; intros timeout now; [done|].
  destruct (Z.lt_ge_cases (Z.max now offered) (now + timeout)) as [Hin|Hout].
  - destruct (decide (Acquired info = acquired)) as [He|Hne].
    + rewrite nextMatching_match by done.
      pose proof (raft_at_names_node info Hinfo) as Hat.
      destruct (raft_at rafts (On info)) as [r| |]; [|done|done].
      unfold confirmation. destruct acquired.
      * specialize (Hw r timeout). by destruct (WaitLeader r timeout).
      * specialize (Hp timeout r (25 * Millisecond) "leader state not lost").
        by destruct (waitTimeout _ _ _ _).
    + rewrite nextMatching_skip by done. apply IH.
  - pose proof (nextMatching_late WaitLeader waitTimeout rafts timeout acquired
                  now offered info rest Hout) as Hl.
    by destruct (nextMatching _ _ _ _ _ _ _).
Qed.

Lemma Forall_zip_snd {A B} (P : B → Prop) (l : list A) (k : list B) :
  Forall P k → Forall (λ e, P e.2) (zip l k).
Proof.
  intros Hk. revert l. induction Hk as [|y k Hy _ IH]; intros [|x l]; simpl;
    try constructor; auto.
Qed.

(** X4: when the knob holds as many instances as it has channels, the
    events the aggregator forwards never make NextAcquired or NextLost
    index [k.rafts] out of range, whenever they are offered and whatever
    the schedule was: as long as the confirmations do not panic, the call
    returns a node index or fails the test. *)
Theorem consumers_never_index_out_of_range schedule k (times : list Z)
    timeout acquired now :
  ch k = [] →
  length rafts = length (notifyChs k) →
  (∀ r t, is_panic (WaitLeader r t) = false) →
  (∀ t r i msg, is_panic (waitTimeout t r i msg) = false) →
  is_panic (nextMatching WaitLeader waitTimeout rafts timeout acquired now
              (zip times (ch (knob (watch schedule k))))) = false.
Proof.
  intros Hempty Hlen Hw Hp.
  apply nextMatching_no_panic; [done|done|].
  apply Forall_zip_snd.
  destruct (watch_loop_names_nodes (length (notifyChs k)) schedule (watch_start k)
              (run_shape_start k)) as (new & Hnew & Hall).
  unfold watch. rewrite Hnew. simpl. rewrite Hempty, Hlen. done.
Qed.

End watch_then_next.

Lemma consumers_never_index_out_of_range_witness :
  ch three_nodes = []
  ∧ length three_rafts = length (notifyChs three_nodes)
  ∧ is_panic (nextMatching confirm_leader confirm_check three_rafts
                (10 * Millisecond) true 0
                (zip [Millisecond; 2 * Millisecond]
                   (ch (knob (watch [Close 0%nat; Pick 0%nat; Signal 1%nat true;
                                     Pick 0%nat] three_nodes))))) = false.
Proof.
  split; [reflexivity|]. split; [reflexivity|].
  apply (consumers_never_index_out_of_range confirm_leader confirm_check three_rafts);
    [reflexivity | reflexivity | done | done].
Defined.

(** ** Shutdown: which failure is reported *)

Section shutdown_failures.
Variable w : world.
Implicit Types (f : raft_Future) (e l futures : list raft_Future).






End shutdown_failures.

(** ** The default nodes *)

Lemma Itoa_inj (i j : Z) : Itoa i = Itoa j → i = j.
Proof.
  unfold Itoa. intros H.
  assert (Hnil : ∀ z, Z.to_int z ≠ Decimal.Pos Decimal.Nil
                      ∧ Z.to_int z ≠ Decimal.Neg Decimal.Nil).
  { intros [|p|p]; simpl; split; try discriminate.
    - intros [= Hp]. by apply DecimalPos.Unsigned.to_uint_nonnil in Hp.
    - intros [= Hp]. by apply DecimalPos.Unsigned.to_uint_nonnil in Hp. }
  apply (f_equal NilZero.int_of_string) in H.
  rewrite !NilZero.isi in H by apply Hnil.
  apply DecimalZ.to_int_inj. congruence.
Qed.

Section default_nodes_facts.
Variable w : world.
Implicit Types (c : cluster) (tr : list effect).

(** What newDefaultNode allocates, by number. *)
Lemma newDefaultNode_alloc i tr :
  ∃ nd,
    newDefaultNode w i tr
    = (Done nd, tr ++ [CallNewInmemTransport (Itoa i); CallNewInmemStore;
                       CallNewInmemStore; CallNewInmemSnapshotStore; AllocNode])
    ∧ transport_id (Transport nd) = length tr
    ∧ Logs nd = InmemStore (length tr + 1)
    ∧ Stable nd = InmemStore (length tr + 2)
    ∧ Snapshots nd = InmemSnapshotStore (length tr + 3)
    ∧ node_addr nd = (length tr + 4)%nat
    ∧ LocalID (Config nd) = Itoa i
    ∧ LocalAddr (Transport nd) = Itoa i
    ∧ WithPeers (Transport nd) = true
    ∧ Bootstrap nd = true
    ∧ NotifyCh (Config nd) = None.
Proof.
  eexists. split.
  { cbv [newDefaultNode mbind run_bind mret run_ret call_NewInmemTransport
         call_NewInmemStore call_NewInmemSnapshotStore alloc_node].
    rewrite <- !app_assoc. reflexivity. }
  cbv beta. simpl. rewrite !length_app. simpl.
  repeat split; try done; f_equal; lia.
Qed.

Lemma default_nodes_alloc count i c tr :
  ∃ c' tr',
    default_nodes w count i c tr = (Done c', tr')
    ∧ length tr' = (length tr + 5 * count)%nat
    ∧ (∀ k, k < i ∨ i + Z.of_nat count ≤ k → nodes c' !! k = nodes c !! k)
    ∧ ∀ k, (k < count)%nat →
        ∃ nd, nodes c' !! (i + Z.of_nat k) = Some nd
              ∧ transport_id (Transport nd) = (length tr + 5 * k)%nat
              ∧ Logs nd = InmemStore (length tr + 5 * k + 1)
              ∧ Stable nd = InmemStore (length tr + 5 * k + 2)
              ∧ Snapshots nd = InmemSnapshotStore (length tr + 5 * k + 3)
              ∧ node_addr nd = (length tr + 5 * k + 4)%nat
              ∧ LocalID (Config nd) = Itoa (i + Z.of_nat k)
              ∧ LocalAddr (Transport nd) = Itoa (i + Z.of_nat k)
              ∧ WithPeers (Transport nd) = true
              ∧ Bootstrap nd = true
              ∧ NotifyCh (Config nd) = None.
Proof.
  revert i c tr. induction count as [|count IH]; intros i c tr.
  - exists c, tr. split; [done|]. split; [simpl; lia|]. split; [done|]. intros k Hk. lia.
  - destruct (newDefaultNode_alloc i tr)
      as (nd & Hnd & Ht & Hlo & Hst & Hsn & Ha & Hid & Had & Hwp & Hb & Hch).
    destruct (IH (i + 1) {| nodes := <[i := nd]> (nodes c) |}
                (tr ++ [CallNewInmemTransport (Itoa i); CallNewInmemStore;
                        CallNewInmemStore; CallNewInmemSnapshotStore; AllocNode]))
      as (c' & tr' & Hrun & Hlen & Hout & Hin).
    rewrite length_app in Hlen. simpl in Hlen.
    exists c', tr'. split.
    { simpl. rewrite bind_run, Hnd. exact Hrun. }
    split; [lia|]. split.
    { intros k Hk. rewrite Hout by lia. simpl. apply lookup_insert_ne. lia. }
    intros [|k] Hk.
    + exists nd. rewrite Z.add_0_r, !Nat.mul_0_r, !Nat.add_0_r.
      rewrite Hout by lia. simpl. rewrite lookup_insert_eq. done.
    + destruct (Hin k) as (nd' & Hl' & Ht' & Hlo' & Hst' & Hsn' & Ha' & Hid' & Had' & Hrest);
        [lia|].
      exists nd'. rewrite length_app in *. simpl in *.
      replace (i + Z.of_nat (S k)) with (i + 1 + Z.of_nat k) by lia.
      split; [done|]. split; [lia|].
      split; [rewrite Hlo'; f_equal; lia|].
      split; [rewrite Hst'; f_equal; lia|].
      split; [rewrite Hsn'; f_equal; lia|].
      split; [lia|]. done.
Qed.

(** X8: the loop of Cluster that allocates the default nodes always goes
    through, and no two of the nodes it makes share anything: their server
    IDs and addresses differ (strconv.Itoa is injective), and so do their
    node structs, transports, log stores, stable stores and snapshot
    stores; the log store and the stable store of any two nodes, the same
    node included, are different stores. *)
Theorem default_nodes_share_nothing n tr :
  ∃ c tr',
    default_nodes w n 0 {| nodes := ∅ |} tr = (Done c, tr')
    ∧ (∀ i j ni nj,
         nodes c !! i = Some ni → nodes c !! j = Some nj → i ≠ j →
         LocalID (Config ni) ≠ LocalID (Config nj)
         ∧ LocalAddr (Transport ni) ≠ LocalAddr (Transport nj)
         ∧ node_addr ni ≠ node_addr nj
         ∧ Transport ni ≠ Transport nj
         ∧ Logs ni ≠ Logs nj
         ∧ Stable ni ≠ Stable nj
         ∧ Snapshots ni ≠ Snapshots nj)
    ∧ (∀ i j ni nj,
         nodes c !! i = Some ni → nodes c !! j = Some nj →
         Logs ni ≠ Stable nj).
Proof.
  destruct (default_nodes_alloc n 0 {| nodes := ∅ |} tr)
    as (c & tr' & Hrun & _ & Hout & Hin).
  exists c, tr'. split; [done|].
  assert (Hk : ∀ i ni, nodes c !! i = Some ni →
            ∃ k, i = Z.of_nat k
                 ∧ transport_id (Transport ni) = (length tr + 5 * k)%nat
                 ∧ Logs ni = InmemStore (length tr + 5 * k + 1)
                 ∧ Stable ni = InmemStore (length tr + 5 * k + 2)
                 ∧ Snapshots ni = InmemSnapshotStore (length tr + 5 * k + 3)
                 ∧ node_addr ni = (length tr + 5 * k + 4)%nat
                 ∧ LocalID (Config ni) = Itoa i
                 ∧ LocalAddr (Transport ni) = Itoa i).
  { intros i ni Hi.
    destruct (decide (0 ≤ i < Z.of_nat n)) as [Hr|Hr].
    - destruct (Hin (Z.to_nat i)) as (nd & Hl & H1 & H2 & H3 & H4 & H5 & H6 & H7 & _);
        [lia|].
      rewrite Z.add_0_l, Z2Nat.id in * by lia. simplify_eq.
      exists (Z.to_nat i). rewrite Z2Nat.id by lia. done.
    - rewrite Hout in Hi by lia. simpl in Hi. by rewrite lookup_empty in Hi. }
  split.
  - intros i j ni nj Hi Hj Hne.
    destruct (Hk i ni Hi) as (ki & -> & Ht & Hlo & Hst & Hsn & Ha & Hid & Had).
    destruct (Hk j nj Hj) as (kj & -> & Ht' & Hlo' & Hst' & Hsn' & Ha' & Hid' & Had').
    assert (ki ≠ kj) by congruence.
    rewrite Hid, Hid', Had, Had', Ha, Ha', Hlo, Hlo', Hst, Hst', Hsn, Hsn'.
    split; [intros ?%Itoa_inj; lia|]. split; [intros ?%Itoa_inj; lia|].
    split; [lia|]. split; [intros Heq; rewrite Heq in Ht; lia|].
    split; [intros [=]; lia|]. split; [intros [=]; lia|]. intros [=]; lia.
  - intros i j ni nj Hi Hj.
    destruct (Hk i ni Hi) as (ki & _ & _ & -> & _).
    destruct (Hk j nj Hj) as (kj & _ & _ & _ & -> & _).
    intros [=]. lia.
Qed.

End default_nodes_facts.

(** ** bootstrapCluster, counted *)



Section bootstrap_counts.
Variable w : world.
Hypothesis ranges : ranges_visit_each_once w.
Implicit Types (nds : gmap Z node) (tr : list effect).





(** X10: on a table in which no node is flagged for bootstrap (every node
    opted out, or no node at all) bootstrapCluster returns without a
    single call to the engine or to a transport. *)
Theorem bootstrap_of_no_node nds tr :
  (∀ i nd, nds !! i = Some nd → Bootstrap nd = false) →
  bootstrapCluster w nds tr = (Done tt, tr).
Proof.
  intros Hnone.
  assert (Hfl : ∀ site, flagged (range_nodes w site nds) = []).
  { intros site. destruct (flagged (range_nodes w site nds)) as [|[i nd] l] eqn:E; [done|].
    assert (Hin : (i, nd) ∈ flagged (range_nodes w site nds)) by (rewrite E; left).
    apply (flagged_entry w ranges) in Hin as [Hi Hb].
    rewrite (Hnone i nd Hi) in Hb. done. }
  destruct (bootstrapCluster_run w nds tr) as (_ & Hok & _).
  rewrite Hok.
  - unfold connect_calls. rewrite !Hfl. simpl. by rewrite app_nil_r.
  - rewrite Hfl. constructor.
  - rewrite Hfl. done.
Qed.

End bootstrap_counts.

Section default_nodes_distinct.
Variable w : world.

Lemma default_nodes_distinct n tr c tr' :
  default_nodes w n 0 {| nodes := ∅ |} tr = (Done c, tr') → distinct_nodes (nodes c).
Proof.
  intros Hrun.
  destruct (default_nodes_alloc w n 0 {| nodes := ∅ |} tr)
    as (c1 & tr1 & Hrun1 & _ & Hout & Hin).
  rewrite Hrun in Hrun1. simplify_eq.
  assert (Hk : ∀ i ni, nodes c1 !! i = Some ni →
            ∃ k, i = Z.of_nat k ∧ node_addr ni = (length tr + 5 * k + 4)%nat).
  { intros i ni Hi.
    destruct (decide (0 ≤ i < Z.of_nat n)) as [Hr|Hr].
    - destruct (Hin (Z.to_nat i)) as (nd & Hl & _ & _ & _ & _ & Ha & _); [lia|].
      rewrite Z.add_0_l, Z2Nat.id in Hl by lia. simplify_eq.
      exists (Z.to_nat i). rewrite Z2Nat.id by lia. done.
    - rewrite Hout in Hi by lia. simpl in Hi. by rewrite lookup_empty in Hi. }
  intros i j ni nj Hi Hj Heq.
  destruct (Hk i ni Hi) as (ki & -> & Ha).
  destruct (Hk j nj Hj) as (kj & -> & Ha'). lia.
Qed.

End default_nodes_distinct.



Lemma bootstrap_of_no_node_witness :
  ranges_visit_each_once quiet_world
  ∧ (∀ i nd, sitting_out !! i = Some nd → Bootstrap nd = false)
  ∧ bootstrapCluster quiet_world sitting_out [] = (Done tt, []).
Proof.
  assert (H : ∀ i nd, sitting_out !! i = Some nd → Bootstrap nd = false).
  { intros i nd Hi. unfold sitting_out in Hi.
    apply lookup_singleton_Some in Hi as [_ <-]. reflexivity. }
  split; [exact quiet_ranges|]. split; [exact H|].
  exact (bootstrap_of_no_node quiet_world quiet_ranges sitting_out [] H).
Defined.

(** ** The notify knob before the nodes exist *)

Lemma Notify_pre_dense n (c : cluster) (tr : list effect) :
  dense n c →
  pre Notify c tr
  = (Done {| nodes := map_imap (λ i nd, Some (with_NotifyCh (Z.to_nat i) nd))
                        (nodes c) |},
     tr ++ [KnobDid "go k.watch()"]).
Proof.
  intros Hc. simpl. rewrite bool_decide_true; [done|].
  intros i nd Hi. rewrite (dense_size n c Hc). apply Hc. by rewrite Hi.
Qed.



(** ** Cluster with an engine that accepts *)



Section cluster_runs.
Variable w : world.
Implicit Types (c : cluster) (tr : list effect) (knobs : list Knob).
Implicit Types (fsms : list raft_FSM) (rafts : list raft_Raft).

Lemma accepting_bootstraps configuration tr (called : list node) :
  accepting w → bootstraps_accepted w configuration tr called.
Proof.
  intros [Hb _]. revert tr. induction called as [|nd rest IH]; intros tr; simpl; [done|].
  split; [apply Hb | apply IH].
Qed.

(** The log of the loop that allocates the default nodes. *)
Lemma default_nodes_log count i c tr :
  ∃ allocs,
    (default_nodes w count i c tr).2 = tr ++ allocs
    ∧ Forall is_alloc allocs.
Proof.
  revert i c tr. induction count as [|count IH]; intros i c tr; simpl.
  - exists []. by rewrite app_nil_r.
  - rewrite bind_run.
    destruct (newDefaultNode_alloc w i tr) as (nd & -> & _).
    destruct (IH (i + 1) {| nodes := <[i := nd]> (nodes c) |}
                (tr ++ [CallNewInmemTransport (Itoa i); CallNewInmemStore;
                        CallNewInmemStore; CallNewInmemSnapshotStore; AllocNode]))
      as (allocs & -> & Hall).
    eexists. rewrite <- app_assoc. split; [reflexivity|].
    repeat (constructor; [done|]). done.
Qed.

(** The log of the loop that starts the nodes: one call per FSM reached. *)
Lemma start_nodes_log c i fsms rafts tr :
  ∃ calls,
    (start_nodes w c i fsms rafts tr).2 = tr ++ calls
    ∧ Forall is_newraft calls
    ∧ (length calls ≤ length fsms)%nat
    ∧ (is_done (start_nodes w c i fsms rafts tr).1 = true →
       length calls = length fsms)
    ∧ (is_fatal (start_nodes w c i fsms rafts tr).1 = true →
       (start_nodes w c i fsms rafts tr).1
       = Fatal "failed to start test raft node %d: %v"
       ∧ ∃ before conf fsm logs stable snaps trans,
           calls = before ++ [CallNewRaft conf fsm logs stable snaps trans]
           ∧ fsms !! length before = Some fsm
           ∧ (raft_NewRaft w (tr ++ before) conf fsm logs stable snaps trans).2
             ≠ None).
Proof.
  revert i rafts tr. induction fsms as [|fsm rest IH]; intros i rafts tr; simpl.
  - exists []. rewrite app_nil_r. done.
  - rewrite bind_run. unfold newRaft.
    destruct (nodes c !! i) as [nd|]; simpl.
    2: { exists []. rewrite app_nil_r. split; [done|]. split; [done|].
         split; [simpl; lia|]. done. }
    unfold call_NewRaft.
    destruct (raft_NewRaft w tr (Config nd) fsm (Logs nd) (Stable nd)
                (Snapshots nd) (Transport nd)) as [r [err|]] eqn:Enew; simpl.
    + eexists [_]. split; [done|]. split; [by repeat constructor|].
      split; [simpl; lia|]. split; [done|]. intros _. split; [done|].
      exists [], (Config nd), fsm, (Logs nd), (Stable nd), (Snapshots nd), (Transport nd).
      rewrite app_nil_r, Enew. done.
    + destruct (IH (i + 1) (<[Z.to_nat i := r]> rafts)
                  (tr ++ [CallNewRaft (Config nd) fsm (Logs nd) (Stable nd)
                            (Snapshots nd) (Transport nd)]))
        as (calls & Hlog & Hall & Hle & Hdone & Hfatal).
      exists (CallNewRaft (Config nd) fsm (Logs nd) (Stable nd)
                (Snapshots nd) (Transport nd) :: calls).
      rewrite Hlog, <- app_assoc. split; [done|].
      split; [by constructor|]. split; [simpl; lia|].
      split; [intros Hd; simpl; by rewrite Hdone|].
      intros Hf. destruct (Hfatal Hf)
        as (Hmsg & before & conf & f & lo & st & sn & trn & Hc & Hk & Hrej).
      split; [done|].
      exists (CallNewRaft (Config nd) fsm (Logs nd) (Stable nd)
                (Snapshots nd) (Transport nd) :: before), conf, f, lo, st, sn, trn.
      rewrite Hc. split; [done|]. split; [done|].
      by rewrite <- app_assoc in Hrej.
Qed.

(** With every index at hand and an engine that accepts, every node is
    started. *)
Lemma start_nodes_accepted n c i fsms rafts tr :
  accepting w → dense n c → 0 ≤ i →
  i + Z.of_nat (length fsms) ≤ Z.of_nat n →
  is_done (start_nodes w c i fsms rafts tr).1 = true.
Proof.
  intros [_ Hacc] Hc. revert i rafts tr.
  induction fsms as [|fsm rest IH]; intros i rafts tr Hi Hn; simpl; [done|].
  simpl in Hn. rewrite bind_run. unfold newRaft.
  destruct (proj2 (Hc i)) as [nd Hnd]; [lia|]. rewrite Hnd.
  unfold call_NewRaft.
  specialize (Hacc tr (Config nd) fsm (Logs nd) (Stable nd) (Snapshots nd) (Transport nd)).
  destruct (raft_NewRaft w tr _ fsm _ _ _ _) as [r err]. simpl in Hacc. subst err.
  apply IH; lia.
Qed.

End cluster_runs.

Section cluster_goes_through.
Variable w : world.
Hypothesis ranges : ranges_visit_each_once w.
Hypothesis accepts : accepting w.
Implicit Types (c : cluster) (tr : list effect) (knobs : list Knob).
Implicit Types (fsms : list raft_FSM) (rafts : list raft_Raft).

(** From a table that has every index, with transports that connect peers,
    and with silent post hooks, Cluster goes through; its log is the
    Connect calls, the bootstrap calls and one start per FSM. *)
Lemma Cluster_goes_through fsms knobs tr c tr1 :
  dependencies w (length fsms) knobs tr = (Done c, tr1) →
  dense (length fsms) c →
  (∀ i nd, nodes c !! i = Some nd → WithPeers (Transport nd) = true) →
  (∀ rafts tr', for_range knobs (λ knob, post knob rafts) tr' = (Done tt, tr')) →
  ∃ rafts calls,
    Cluster w fsms knobs tr
    = (Done (rafts, Shutdown w rafts),
       tr1 ++ connect_calls w (nodes c) (range_nodes w OuterConnect (nodes c))
           ++ (bootstrap_call (membership w (nodes c))
                 <$> (flagged (range_nodes w BootstrapLoop (nodes c))).*2)
           ++ calls)
    ∧ length rafts = length fsms
    ∧ Forall is_newraft calls
    ∧ length calls = length fsms
    ∧ ∀ i fsm, fsms !! i = Some fsm →
        ∃ nd, nodes c !! Z.of_nat i = Some nd
              ∧ CallNewRaft (Config nd) fsm (Logs nd) (Stable nd)
                  (Snapshots nd) (Transport nd) ∈ calls.
Proof.
  intros Hdep Hc Hwp Hpost. rewrite Cluster_phases, Hdep.
  destruct (bootstrapCluster_run w (nodes c) tr1) as (_ & Hok & _).
  rewrite Hok; cycle 1.
  { apply Forall_forall. intros [i nd] Hin. left. simpl.
    apply (flagged_entry w ranges) in Hin as [Hi _]. by eapply Hwp. }
  { by apply accepting_bootstraps. }
  set (tr2 := tr1 ++ _ ++ _).
  pose proof (start_nodes_accepted w (length fsms) c 0 fsms
                (replicate (length fsms) nilRaft) tr2 accepts Hc
                ltac:(lia) ltac:(lia)) as Hstart.
  destruct (start_nodes_log w c 0 fsms (replicate (length fsms) nilRaft) tr2)
    as (calls & Hlog & Hcalls & _ & Hlen & _).
  destruct (start_nodes w c 0 fsms (replicate (length fsms) nilRaft) tr2)
    as [[rafts| |] tr3] eqn:Es; simpl in Hstart; [|done|done].
  simpl in Hlog. subst tr3. rewrite Hpost.
  exists rafts, calls. unfold tr2. rewrite <- !app_assoc.
  split; [done|].
  apply start_nodes_done in Es as (Hl & _ & Hfrom); [|done].
  rewrite length_replicate in Hl.
  split; [done|]. split; [done|]. split; [by apply Hlen|].
  intros i fsm Hi.
  destruct (Hfrom i fsm Hi) as (nd & trk & r & Hnd & [x ->] & [y Hy] & _).
  exists nd. split; [done|].
  rewrite <- !app_assoc in Hy. apply app_inv_head in Hy. rewrite Hy.
  apply elem_of_app. right. simpl. left.
Qed.

End cluster_goes_through.

Lemma quiet_accepting : accepting quiet_world.
Proof. split; intros; reflexivity. Qed.


Section cluster_theorems_beyond.
Variable w : world.
Implicit Types (c : cluster) (tr : list effect) (knobs : list Knob).
Implicit Types (fsms : list raft_FSM) (rafts : list raft_Raft).

Lemma dependencies_no_knobs n tr :
  ∃ c allocs,
    dependencies w n [] tr = (Done c, tr ++ allocs)
    ∧ Forall is_alloc allocs
    ∧ length allocs = (5 * n)%nat
    ∧ dense n c
    ∧ distinct_nodes (nodes c)
    ∧ ∀ i nd, nodes c !! i = Some nd →
        WithPeers (Transport nd) = true ∧ Bootstrap nd = true
        ∧ LocalID (Config nd) = Itoa i ∧ NotifyCh (Config nd) = None.
Proof.
  destruct (default_nodes_alloc w n 0 {| nodes := ∅ |} tr)
    as (c & tr' & Hrun & Hlen & Hout & Hin).
  destruct (default_nodes_log w n 0 {| nodes := ∅ |} tr) as (allocs & Hlog & Hall).
  rewrite Hrun in Hlog. simpl in Hlog. subst tr'.
  exists c, allocs. split.
  { unfold dependencies. rewrite bind_run, Hrun. done. }
  split; [done|]. split; [rewrite length_app in Hlen; lia|].
  split; [by eapply default_nodes_dense|].
  split; [by eapply default_nodes_distinct|].
  intros i nd Hi.
  destruct (decide (0 ≤ i < Z.of_nat n)) as [Hr|Hr].
  - destruct (Hin (Z.to_nat i)) as (nd' & Hl & _ & _ & _ & _ & _ & Hid & _ & Hwp & Hb & Hch);
      [lia|].
    rewrite Z.add_0_l, Z2Nat.id in * by lia. by simplify_eq.
  - rewrite Hout in Hi by lia. simpl in Hi. by rewrite lookup_empty in Hi.
Qed.


Hypothesis ranges : ranges_visit_each_once w.
Hypothesis accepts : accepting w.


End cluster_theorems_beyond.


Section cluster_with_notify.
Variable w : world.
Hypothesis ranges : ranges_visit_each_once w.
Hypothesis accepts : accepting w.
Implicit Types (c : cluster) (tr : list effect).
Implicit Types (fsms : list raft_FSM) (rafts : list raft_Raft).

(** X13: with the notify knob and an engine that accepts every call,
    Cluster returns its N instances, and the configuration handed to the
    engine when the node of the i-th FSM is started carries the server ID
    of index i and, as its notification channel, the channel the knob keeps
    at [k.notifyChs[i]]: what node i signals is what the aggregator reads
    on case i. *)
Theorem Cluster_with_Notify_wires_channels fsms tr :
  ∃ rafts tr',
    Cluster w fsms [Notify] tr = (Done (rafts, Shutdown w rafts), tr')
    ∧ length rafts = length fsms
    ∧ ∀ i fsm, fsms !! i = Some fsm →
        ∃ conf logs stable snaps trans,
          CallNewRaft conf fsm logs stable snaps trans ∈ tr'
          ∧ NotifyCh conf = Some i
          ∧ LocalID conf = Itoa (Z.of_nat i).
Proof.
  destruct (dependencies_no_knobs w (length fsms) tr)
    as (c0 & allocs & Hdep0 & _ & _ & Hc0 & _ & Hnodes).
  set (c1 := {| nodes := map_imap (λ i nd, Some (with_NotifyCh (Z.to_nat i) nd))
                           (nodes c0) |}).
  assert (Hdep : dependencies w (length fsms) [Notify] tr
                 = (Done c1, (tr ++ allocs) ++ [KnobDid "go k.watch()"])).
  { unfold dependencies in *. rewrite bind_run in *.
    destruct (default_nodes w (length fsms) 0 {| nodes := ∅ |} tr) as [[c| |] tr0];
      [|done|done].
    simpl in Hdep0. rewrite ret_run in Hdep0. simplify_eq.
    cbn [pre_knobs]. rewrite bind_run, (Notify_pre_dense (length fsms) c0 _ Hc0).
    done. }
  assert (Hlook : ∀ i, nodes c1 !! i = with_NotifyCh (Z.to_nat i) <$> nodes c0 !! i).
  { intros i. unfold c1. simpl. rewrite map_lookup_imap.
    by destruct (nodes c0 !! i). }
  destruct (Cluster_goes_through w ranges accepts fsms [Notify] tr c1 _ Hdep)
    as (rafts & calls & Hrun & Hr & _ & _ & Hfrom).
  { intros i. rewrite Hlook, fmap_is_Some. apply Hc0. }
  { intros i nd. rewrite Hlook. intros Hi.
    destruct (nodes c0 !! i) as [nd0|] eqn:E0; simplify_eq/=.
    by destruct (Hnodes i nd0 E0). }
  { intros rafts tr'. reflexivity. }
  eexists rafts, _. split; [exact Hrun|]. split; [done|].
  intros i fsm Hi. destruct (Hfrom i fsm Hi) as (nd & Hnd & Hin).
  rewrite Hlook in Hnd.
  destruct (nodes c0 !! Z.of_nat i) as [nd0|] eqn:E0; simplify_eq/=.
  destruct (Hnodes _ nd0 E0) as (_ & _ & Hid & _).
  eexists _, _, _, _, _. split.
  { rewrite !elem_of_app. right. right. right. exact Hin. }
  simpl. rewrite Nat2Z.id. done.
Qed.

End cluster_with_notify.

Lemma Cluster_with_Notify_wires_channels_witness :
  ranges_visit_each_once quiet_world
  ∧ accepting quiet_world
  ∧ ∃ rafts tr',
      Cluster quiet_world two_fsms [Notify] []
      = (Done (rafts, Shutdown quiet_world rafts), tr')
      ∧ length rafts = length two_fsms
      ∧ ∀ i fsm, two_fsms !! i = Some fsm →
          ∃ conf logs stable snaps trans,
            CallNewRaft conf fsm logs stable snaps trans ∈ tr'
            ∧ NotifyCh conf = Some i
            ∧ LocalID conf = Itoa (Z.of_nat i).
Proof.
  split; [exact quiet_ranges|]. split; [exact quiet_accepting|].
  exact (Cluster_with_Notify_wires_channels quiet_world quiet_ranges
           quiet_accepting two_fsms []).
Defined.

Section cluster_failed_start.
Variable w : world.
Implicit Types (c : cluster) (tr : list effect) (knobs : list Knob).
Implicit Types (fsms : list raft_FSM).


End cluster_failed_start.


(** The refused start is the second: one node was started before it. *)
Example Cluster_refused_second :
  (Cluster refusing_world three_fsms [] []).1
  = Fatal "failed to start test raft node %d: %v"
  ∧ length (filter is_newraft (Cluster refusing_world three_fsms [] []).2) = 2%nat.
Proof. vm_compute. done. Qed.

(** ** The consumers over a run of discarded events *)

Section discarded_run.
Variable WaitLeader : raft_Raft → Z → outcome unit.
Variable waitTimeout : Z → raft_Raft → Z → string → outcome unit.
Variable rafts : list raft_Raft.
Implicit Types (skipped rest : list (Z * leadershipChange)) (acquired : bool).

Lemma received_by_app_list now skipped rest :
  received_by now (skipped ++ rest) = received_by (received_by now skipped) rest.
Proof. unfold received_by. by rewrite foldl_app. Qed.




End discarded_run.


(** ** The aggregator invents no event *)

Section watch_backlog.
Implicit Types (s : watching) (k : NotifyKnob) (i c n : nat) (f g : nat → nat).

Lemma sum_list_with_off c f g (cs : list nat) :
  c ∉ cs → (∀ x, x ≠ c → g x = f x) →
  sum_list_with g cs = sum_list_with f cs.
Proof.
  intros Hnot Hfg. induction cs as [|x cs IH]; [done|].
  apply not_elem_of_cons in Hnot as [Hx Hcs]. simpl.
  rewrite IH by done. rewrite Hfg by done. done.
Qed.

Lemma sum_list_with_at c f g (cs : list nat) :
  NoDup cs → c ∈ cs → (∀ x, x ≠ c → g x = f x) →
  (sum_list_with g cs + f c = sum_list_with f cs + g c)%nat.
Proof.
  intros Hnd Hin Hfg. induction Hnd as [|x cs Hx Hnd IH]; [by apply elem_of_nil in Hin|].
  simpl. apply elem_of_cons in Hin as [->|Hin].
  - rewrite (sum_list_with_off x f g cs) by done. lia.
  - assert (x ≠ c) by congruence. rewrite Hfg by done.
    specialize (IH Hin). lia.
Qed.

Lemma sum_list_with_grows c f g (cs : list nat) :
  NoDup cs → (∀ x, x ≠ c → g x = f x) → (g c ≤ f c + 1)%nat →
  (sum_list_with g cs ≤ sum_list_with f cs + 1)%nat.
Proof.
  intros Hnd Hfg Hc. destruct (decide (c ∈ cs)) as [Hin|Hnot].
  - pose proof (sum_list_with_at c f g cs Hnd Hin Hfg). lia.
  - rewrite (sum_list_with_off c f g cs) by done. lia.
Qed.

Lemma run_shape_NoDup n s : run_shape n s → NoDup (cases s).
Proof. intros [_ Hs]. exact (sublist_NoDup _ _ (NoDup_seq _ _) Hs). Qed.

(** A round takes one unit off the backlog and sends one event. *)
Lemma backlog_round n i s s' :
  run_shape n s → watch_iteration i s = Next s' →
  (backlog s' + 1 = backlog s)%nat
  ∧ length (ch (knob s')) = (length (ch (knob s)) + 1)%nat.
Proof.
  intros Hshape H. pose proof (run_shape_NoDup n s Hshape) as Hnd.
  apply watch_iteration_Next in H as (Hlen & c & chn & v & ok & chn' & Hc & Hchn & Hr & ->).
  split; [|simpl; rewrite length_app; simpl; lia].
  assert (Hin : c ∈ cases s) by (by eapply list_elem_of_lookup_2).
  pose proof (lookup_lt_Some _ _ _ Hchn) as Hlt.
  destruct ok.
  - apply receive_ok_true in Hr as [Hq _].
    set (k' := {| ch := ch (knob s) ++ [{| On := Z.of_nat i; Acquired := v |}];
                  notifyChs := <[c:=chn']> (notifyChs (knob s)) |}).
    assert (Hf : length (pending c (knob s)) = S (length (queued chn'))).
    { unfold pending. rewrite Hchn. simpl. by rewrite Hq. }
    assert (Hg : length (pending c k') = length (queued chn')).
    { unfold pending. simpl. by rewrite list_lookup_insert_eq. }
    assert (Hoff : ∀ x, x ≠ c →
              length (pending x k') = length (pending x (knob s))).
    { intros x Hx. unfold pending. simpl. by rewrite list_lookup_insert_ne. }
    pose proof (sum_list_with_at c (λ x, length (pending x (knob s)))
                  (λ x, length (pending x k')) (cases s) Hnd Hin Hoff) as Hsum.
    cbv beta in Hsum. rewrite Hf, Hg in Hsum.
    unfold backlog. cbn [knob cases]. lia.
  - apply receive_ok_false in Hr as (-> & -> & Hq & Hcl).
    unfold backlog. cbn [knob cases]. rewrite list_insert_id by done.
    assert (Hf : length (pending c (knob s)) = 0%nat).
    { unfold pending. rewrite Hchn. simpl. by rewrite Hq. }
    assert (Hsame : ∀ l, sum_list_with (λ x, length (pending x
                {| ch := ch (knob s) ++ [{| On := Z.of_nat i; Acquired := false |}];
                   notifyChs := notifyChs (knob s) |})) l
              = sum_list_with (λ x, length (pending x (knob s))) l) by done.
    rewrite Hsame.
    pose proof (f_equal (sum_list_with (λ x, length (pending x (knob s))))
                  (take_drop_middle (cases s) i c Hc)) as Hsum.
    pose proof (f_equal length (take_drop_middle (cases s) i c Hc)) as Hcases.
    rewrite sum_list_with_app in Hsum. rewrite length_app in Hcases.
    change (sum_list_with (λ x, length (pending x (knob s))) (c :: drop (S i) (cases s)))
      with (length (pending c (knob s))
            + sum_list_with (λ x, length (pending x (knob s))) (drop (S i) (cases s)))%nat
      in Hsum.
    rewrite Hf in Hsum. rewrite length_cons in Hcases.
    rewrite sum_list_with_app, length_app. lia.
Qed.

Lemma backlog_signal c v s n :
  run_shape n s → (backlog (on_channel c (signal v) s) ≤ backlog s + 1)%nat.
Proof.
  intros Hshape. pose proof (run_shape_NoDup n s Hshape) as Hnd.
  unfold backlog. change (cases (on_channel c (signal v) s)) with (cases s).
  enough (sum_list_with (λ c0, length (pending c0 (knob (on_channel c (signal v) s))))
            (cases s)
          ≤ sum_list_with (λ c0, length (pending c0 (knob s))) (cases s) + 1)%nat by lia.
  apply (sum_list_with_grows c); [done| |].
  - intros x Hx. unfold pending. simpl. by rewrite list_lookup_alter_ne.
  - unfold pending. simpl. rewrite list_lookup_alter_eq.
    destruct (notifyChs (knob s) !! c) as [chn|]; simpl; [|lia].
    unfold signal. destruct (closed chn || _); simpl; [lia|].
    rewrite length_app. simpl. lia.
Qed.

Lemma backlog_close c s : backlog (on_channel c close s) = backlog s.
Proof.
  unfold backlog. simpl. f_equal.
  induction (cases s) as [|x cs IH]; [done|]. simpl. rewrite IH. f_equal.
  unfold pending. simpl. destruct (decide (c = x)) as [->|Hne].
  - rewrite list_lookup_alter_eq. by destruct (notifyChs (knob s) !! x).
  - by rewrite list_lookup_alter_ne.
Qed.

Lemma watch_loop_backlog n schedule s :
  run_shape n s →
  (length (ch (knob (watch_loop schedule s))) + backlog (watch_loop schedule s)
   ≤ length (ch (knob s)) + backlog s + length (signalled schedule))%nat.
Proof.
  revert s. induction schedule as [|a rest IH]; intros s Hs; simpl; [lia|].
  destruct a as [i|c v|c]; simpl.
  - destruct (watch_iteration i s) as [| |s'] eqn:E; [lia|lia|].
    destruct (backlog_round n i s s' Hs E) as [Hb Hc].
    specialize (IH s' (run_shape_round n i s s' Hs E)). lia.
  - pose proof (backlog_signal c v s n Hs).
    specialize (IH _ (run_shape_on_channel n c (signal v) s Hs)). simpl in *. lia.
  - pose proof (backlog_close c s) as Hb.
    specialize (IH _ (run_shape_on_channel n c close s Hs)). simpl in *. lia.
Qed.

(** X16: the aggregator invents no event. Whatever the nodes and the
    scheduler do, the number of events it has sent on the output channel,
    plus what is still ahead of it (the values queued on live channels and
    one closure per live channel), never exceeds what was there at the
    start plus the signals the nodes tried to send since: every event
    forwarded is paid for by one queued value or by the closure of one
    channel. *)
Theorem watch_invents_no_event schedule k :
  (length (ch (knob (watch schedule k))) + backlog (watch schedule k)
   ≤ length (ch k) + backlog (watch_start k) + length (signalled schedule))%nat.
Proof.
  apply (watch_loop_backlog (length (notifyChs k)) schedule (watch_start k)),
    run_shape_start.
Qed.

(** While the nodes stay silent the account is exact: each round sends one
    event and takes one unit off the backlog. *)
Lemma watch_silent_nodes n picks s :
  run_shape n s →
  (length (ch (knob (watch_loop (Pick <$> picks) s)))
   + backlog (watch_loop (Pick <$> picks) s)
   = length (ch (knob s)) + backlog s)%nat.
Proof.
  revert s. induction picks as [|i rest IH]; intros s Hs; [done|].
  rewrite fmap_cons. cbn [watch_loop].
  destruct (watch_iteration i s) as [| |s'] eqn:E; [done|done|].
  destruct (backlog_round n i s s' Hs E) as [Hb Hc].
  specialize (IH s' (run_shape_round n i s s' Hs E)). lia.
Qed.

End watch_backlog.
